(** * The word-chain game room (roomModel) and its event router

    A shallow embedding of the [GameRoom] class and of the router's end-game
    handler.  The room is a record of the fields the constructor assigns; its
    methods run in a small state-and-exception monad over the room and the
    host (the socket.io outbox and the pending [setTimeout] timers).  A JS
    [Map] is an association list in insertion order, a JS [Set] is a [gset].

    Strings are sequences of code units below 256 (Rocq's [ascii]); a JS
    string with a code unit above 255 is outside the model. *)

From Stdlib Require Import ZArith Ascii String.
From stdpp Require Import base gmap strings list.

Open Scope Z_scope.
Open Scope string_scope.
Open Scope list_scope.

(** ** JavaScript string primitives used by the room *)

(** The simple lower-case mapping of a code unit below 256: A-Z, and the
    Latin-1 capitals U+00C0..U+00DE except the multiplication sign U+00D7. *)
Definition lower_code (n : N) : N :=
  if ((65 <=? n) && (n <=? 90) ||
      (192 <=? n) && (n <=? 222) && negb (n =? 215))%N
  then (n + 32)%N else n.

Definition toLowerCase_char (c : ascii) : ascii :=
  ascii_of_N (lower_code (N_of_ascii c)).

Fixpoint toLowerCase (s : string) : string :=
  match s with
  | EmptyString => EmptyString
  | String c s' => String (toLowerCase_char c) (toLowerCase s')
  end.

(** White space and line terminators that [trim] strips, below 256:
    TAB, LF, VT, FF, CR, SPACE and NBSP. *)
Definition isWhiteSpace (c : ascii) : bool :=
  let n := N_of_ascii c in
  ((9 <=? n) && (n <=? 13) || (n =? 32) || (n =? 160))%N.

Fixpoint trimStart (s : string) : string :=
  match s with
  | EmptyString => EmptyString
  | String c s' => if isWhiteSpace c then trimStart s' else s
  end.

Fixpoint trimEnd (s : string) : string :=
  match s with
  | EmptyString => EmptyString
  | String c s' =>
      match trimEnd s' with
      | EmptyString => if isWhiteSpace c then EmptyString else String c EmptyString
      | t => String c t
      end
  end.

Definition trim (s : string) : string := trimEnd (trimStart s).

(** [s.split("\n")] *)
Fixpoint split_lines (s : string) : list string :=
  match s with
  | EmptyString => [EmptyString]
  | String c s' =>
      if Ascii.eqb c "010"%char then EmptyString :: split_lines s'
      else match split_lines s' with
           | h :: t => String c h :: t
           | [] => [String c EmptyString]
           end
  end.

(** [s.slice(-1)]: the last code unit as a string, or the empty string. *)
Fixpoint slice_last (s : string) : string :=
  match s with
  | EmptyString => EmptyString
  | String c EmptyString => String c EmptyString
  | String _ s' => slice_last s'
  end.

(** [s.charAt(0)]: the first code unit as a string, or the empty string. *)
Definition charAt0 (s : string) : string :=
  match s with
  | EmptyString => EmptyString
  | String c _ => String c EmptyString
  end.

(** ** Errors, notifications and timers *)

Inductive JSError : Type :=
| ReferenceError (ident : string)   (* [ident is not defined] *)
| TypeError (what : string)         (* [what is not a function] *)
| Error (msg : string).             (* [new Error(msg)], and I/O failures *)

Definition error_toString (e : JSError) : string :=
  match e with
  | ReferenceError x => "ReferenceError: " ++ x ++ " is not defined"
  | TypeError f => "TypeError: " ++ f ++ " is not a function"
  | Error m => "Error: " ++ m
  end.

Record PlayerData : Type := mkPlayer {
  socketId : string;
  points : Z
}.

(** The payloads of the events the room and the router emit. *)
Inductive Payload : Type :=
| ErrorOccurred (errorMessage details : string)
| RedirectMainPage (errorMessage details : string)
| TurnChanged (currentPlayer : option string)
| WordPlayFailed (reason : string)
| WordPlayed (username word : string) (pts : Z)
| GameStartedFailed (reason : string)
| GameStarted (firstPlayer : option string) (players : list string)
| YourTurn (timeRemaining : Z)
| TurnTimedOut (player : option string)
| RoomDeleted (reason : string)
| GameEnded (winners : list string) (playerScores : list (string * PlayerData))
| RouterError (msg : string).

(** [io.to(target).emit(event, message)]: the target is a socket id or a
    room id. *)
Record Emit : Type := mkEmit {
  target : string;
  event : string;
  message : Payload
}.

(** What a pending timer calls when it fires. *)
Inductive TimerCallback : Type :=
| CbDeleteRoom (reason : string)
| CbEndGame
| CbHandleRoundTimeout.

Record Timer : Type := mkTimer {
  handle : nat;
  callback : TimerCallback;
  delay : Z                         (* milliseconds *)
}.

(** The host: what was emitted so far (oldest first), the timers that are
    armed, and the next fresh timer handle. *)
Record Host : Type := mkHost {
  outbox : list Emit;
  pending : list Timer;
  nextTimer : nat
}.

(** ** The room *)

(** A JS [Map] from usernames to player data, in insertion order. *)
Abbreviation PlayersMap := (list (string * PlayerData)).

(** The value of [this.validWords]: the set [loadWordList] built, the
    boolean it returns from its [catch] arm, or nothing yet. *)
Inductive WordList : Type :=
| WordSet (words : gset string)
| NotASet (b : bool)
| Unassigned.

Record GameRoom : Type := mkRoom {
  creatorUsername : string;
  roomId : string;
  createdRoomTime : Z;
  roomExpiryTime : Z;
  gameEndTime : Z;
  isRoomActive : bool;
  isGameStarted : bool;
  isGameEnded : bool;
  maxPlayers : nat;
  playersMap : PlayersMap;
  usedWordSet : gset string;
  lastWord : option string;           (* [None] is [null] *)
  roomExpiryTimer : option nat;
  gameEndTimer : option nat;
  roundTimer : option nat;
  roomWinnerArray : option (list string);
  currentTurn : option string;        (* [None] is [undefined] *)
  turnOrder : list string;
  currentTurnIndex : option nat;      (* [None] is [NaN] *)
  validWords : WordList
}.

(** Field assignments. *)
Definition set_isGameStarted (b : bool) (r : GameRoom) : GameRoom :=
  mkRoom r.(creatorUsername) r.(roomId) r.(createdRoomTime) r.(roomExpiryTime)
    r.(gameEndTime) r.(isRoomActive) b r.(isGameEnded) r.(maxPlayers)
    r.(playersMap) r.(usedWordSet) r.(lastWord) r.(roomExpiryTimer)
    r.(gameEndTimer) r.(roundTimer) r.(roomWinnerArray) r.(currentTurn)
    r.(turnOrder) r.(currentTurnIndex) r.(validWords).

Definition set_isGameEnded (b : bool) (r : GameRoom) : GameRoom :=
  mkRoom r.(creatorUsername) r.(roomId) r.(createdRoomTime) r.(roomExpiryTime)
    r.(gameEndTime) r.(isRoomActive) r.(isGameStarted) b r.(maxPlayers)
    r.(playersMap) r.(usedWordSet) r.(lastWord) r.(roomExpiryTimer)
    r.(gameEndTimer) r.(roundTimer) r.(roomWinnerArray) r.(currentTurn)
    r.(turnOrder) r.(currentTurnIndex) r.(validWords).

Definition set_playersMap (m : PlayersMap) (r : GameRoom) : GameRoom :=
  mkRoom r.(creatorUsername) r.(roomId) r.(createdRoomTime) r.(roomExpiryTime)
    r.(gameEndTime) r.(isRoomActive) r.(isGameStarted) r.(isGameEnded)
    r.(maxPlayers) m r.(usedWordSet) r.(lastWord) r.(roomExpiryTimer)
    r.(gameEndTimer) r.(roundTimer) r.(roomWinnerArray) r.(currentTurn)
    r.(turnOrder) r.(currentTurnIndex) r.(validWords).

Definition set_usedWordSet (s : gset string) (r : GameRoom) : GameRoom :=
  mkRoom r.(creatorUsername) r.(roomId) r.(createdRoomTime) r.(roomExpiryTime)
    r.(gameEndTime) r.(isRoomActive) r.(isGameStarted) r.(isGameEnded)
    r.(maxPlayers) r.(playersMap) s r.(lastWord) r.(roomExpiryTimer)
    r.(gameEndTimer) r.(roundTimer) r.(roomWinnerArray) r.(currentTurn)
    r.(turnOrder) r.(currentTurnIndex) r.(validWords).

Definition set_lastWord (w : option string) (r : GameRoom) : GameRoom :=
  mkRoom r.(creatorUsername) r.(roomId) r.(createdRoomTime) r.(roomExpiryTime)
    r.(gameEndTime) r.(isRoomActive) r.(isGameStarted) r.(isGameEnded)
    r.(maxPlayers) r.(playersMap) r.(usedWordSet) w r.(roomExpiryTimer)
    r.(gameEndTimer) r.(roundTimer) r.(roomWinnerArray) r.(currentTurn)
    r.(turnOrder) r.(currentTurnIndex) r.(validWords).

Definition set_roomExpiryTimer (t : option nat) (r : GameRoom) : GameRoom :=
  mkRoom r.(creatorUsername) r.(roomId) r.(createdRoomTime) r.(roomExpiryTime)
    r.(gameEndTime) r.(isRoomActive) r.(isGameStarted) r.(isGameEnded)
    r.(maxPlayers) r.(playersMap) r.(usedWordSet) r.(lastWord) t
    r.(gameEndTimer) r.(roundTimer) r.(roomWinnerArray) r.(currentTurn)
    r.(turnOrder) r.(currentTurnIndex) r.(validWords).

Definition set_gameEndTimer (t : option nat) (r : GameRoom) : GameRoom :=
  mkRoom r.(creatorUsername) r.(roomId) r.(createdRoomTime) r.(roomExpiryTime)
    r.(gameEndTime) r.(isRoomActive) r.(isGameStarted) r.(isGameEnded)
    r.(maxPlayers) r.(playersMap) r.(usedWordSet) r.(lastWord)
    r.(roomExpiryTimer) t r.(roundTimer) r.(roomWinnerArray) r.(currentTurn)
    r.(turnOrder) r.(currentTurnIndex) r.(validWords).

Definition set_roundTimer (t : option nat) (r : GameRoom) : GameRoom :=
  mkRoom r.(creatorUsername) r.(roomId) r.(createdRoomTime) r.(roomExpiryTime)
    r.(gameEndTime) r.(isRoomActive) r.(isGameStarted) r.(isGameEnded)
    r.(maxPlayers) r.(playersMap) r.(usedWordSet) r.(lastWord)
    r.(roomExpiryTimer) r.(gameEndTimer) t r.(roomWinnerArray) r.(currentTurn)
    r.(turnOrder) r.(currentTurnIndex) r.(validWords).

Definition set_currentTurn (u : option string) (r : GameRoom) : GameRoom :=
  mkRoom r.(creatorUsername) r.(roomId) r.(createdRoomTime) r.(roomExpiryTime)
    r.(gameEndTime) r.(isRoomActive) r.(isGameStarted) r.(isGameEnded)
    r.(maxPlayers) r.(playersMap) r.(usedWordSet) r.(lastWord)
    r.(roomExpiryTimer) r.(gameEndTimer) r.(roundTimer) r.(roomWinnerArray) u
    r.(turnOrder) r.(currentTurnIndex) r.(validWords).

Definition set_turnOrder (l : list string) (r : GameRoom) : GameRoom :=
  mkRoom r.(creatorUsername) r.(roomId) r.(createdRoomTime) r.(roomExpiryTime)
    r.(gameEndTime) r.(isRoomActive) r.(isGameStarted) r.(isGameEnded)
    r.(maxPlayers) r.(playersMap) r.(usedWordSet) r.(lastWord)
    r.(roomExpiryTimer) r.(gameEndTimer) r.(roundTimer) r.(roomWinnerArray)
    r.(currentTurn) l r.(currentTurnIndex) r.(validWords).

Definition set_currentTurnIndex (i : option nat) (r : GameRoom) : GameRoom :=
  mkRoom r.(creatorUsername) r.(roomId) r.(createdRoomTime) r.(roomExpiryTime)
    r.(gameEndTime) r.(isRoomActive) r.(isGameStarted) r.(isGameEnded)
    r.(maxPlayers) r.(playersMap) r.(usedWordSet) r.(lastWord)
    r.(roomExpiryTimer) r.(gameEndTimer) r.(roundTimer) r.(roomWinnerArray)
    r.(currentTurn) r.(turnOrder) i r.(validWords).

Definition set_validWords (v : WordList) (r : GameRoom) : GameRoom :=
  mkRoom r.(creatorUsername) r.(roomId) r.(createdRoomTime) r.(roomExpiryTime)
    r.(gameEndTime) r.(isRoomActive) r.(isGameStarted) r.(isGameEnded)
    r.(maxPlayers) r.(playersMap) r.(usedWordSet) r.(lastWord)
    r.(roomExpiryTimer) r.(gameEndTimer) r.(roundTimer) r.(roomWinnerArray)
    r.(currentTurn) r.(turnOrder) r.(currentTurnIndex) v.

(** ** Operations of a JS [Map] on the association list *)

Fixpoint map_get (k : string) (m : PlayersMap) : option PlayerData :=
  match m with
  | [] => None
  | (k', v) :: m' => if String.eqb k' k then Some v else map_get k m'
  end.

Definition map_has (k : string) (m : PlayersMap) : bool :=
  match map_get k m with Some _ => true | None => false end.

(** [m.set(k, v)]: an existing key keeps its place, a new key goes last. *)
Fixpoint map_set (k : string) (v : PlayerData) (m : PlayersMap) : PlayersMap :=
  match m with
  | [] => [(k, v)]
  | (k', v') :: m' =>
      if String.eqb k' k then (k, v) :: m' else (k', v') :: map_set k v m'
  end.

Fixpoint map_delete (k : string) (m : PlayersMap) : PlayersMap :=
  match m with
  | [] => []
  | (k', v') :: m' =>
      if String.eqb k' k then map_delete k m' else (k', v') :: map_delete k m'
  end.

Definition map_keys (m : PlayersMap) : list string := m.*1.

(** [l.indexOf(u)], with [None] for [-1]. *)
Fixpoint indexOf (u : string) (l : list string) : option nat :=
  match l with
  | [] => None
  | x :: l' => if String.eqb x u then Some 0%nat else S <$> indexOf u l'
  end.

(** [(i + 1) % len] on JS numbers: [NaN] when [len] is 0 or [i] is [NaN]. *)
Definition succ_mod (i : option nat) (len : nat) : option nat :=
  match i, len with
  | Some n, S _ => Some ((n + 1) mod len)%nat
  | _, _ => None
  end.

(** [l[i]], with [undefined] out of range and at [NaN]. *)
Definition at_index (l : list string) (i : option nat) : option string :=
  i ≫= (l !!.).

(** ** The monad of room methods

    A method runs on the room and the host, and either returns a value or
    throws.  What it wrote before it threw stays written. *)

Inductive Outcome (A : Type) : Type :=
| Return (a : A)
| Throw (e : JSError).
Arguments Return {A} a.
Arguments Throw {A} e.

Abbreviation World := (GameRoom * Host)%type.

Definition M (A : Type) : Type := World -> Outcome A * World.

#[global] Instance M_ret : MRet M := fun A a w => (Return a, w).

#[global] Instance M_bind : MBind M := fun A B k m w =>
  match m w with
  | (Return a, w') => k a w'
  | (Throw e, w') => (Throw e, w')
  end.

Definition throw {A : Type} (e : JSError) : M A := fun w => (Throw e, w).

(** [try { m } catch (error) { h error }] *)
Definition try_catch {A : Type} (m : M A) (h : JSError -> M A) : M A := fun w =>
  match m w with
  | (Return a, w') => (Return a, w')
  | (Throw e, w') => h e w'
  end.

Definition this : M GameRoom := fun w => (Return w.1, w).

Definition assign (f : GameRoom -> GameRoom) : M unit := fun w =>
  (Return tt, (f w.1, w.2)).

Definition host_emit (e : Emit) (h : Host) : Host :=
  mkHost (outbox h ++ [e]) (pending h) (nextTimer h).

(** [io.to(t).emit(ev, msg)].  The transport's [emit] returns normally, so
    the [catch] arms around it in [sendToPlayer] and [broadcast] never run. *)
Definition io_emit (t ev : string) (msg : Payload) : M unit := fun w =>
  (Return tt, (w.1, host_emit (mkEmit t ev msg) w.2)).

Definition setTimeout (cb : TimerCallback) (ms : Z) : M nat := fun w =>
  let h := nextTimer w.2 in
  (Return h, (w.1, mkHost (outbox w.2) (pending w.2 ++ [mkTimer h cb ms]) (S h))).

Definition clearTimeout (h : nat) : M unit := fun w =>
  (Return tt, (w.1, mkHost (outbox w.2)
                      (filter (fun t => handle t ≠ h) (pending w.2))
                      (nextTimer w.2))).

(** ** The methods of [GameRoom] *)

Record Validation : Type := mkValidation {
  valid : bool;
  reason : string
}.

Section GameRoom.

(** The outcome of [.sort(() => Math.random() - 0.5)] on a list of names. *)
Variable shuffle : list string -> list string.

Definition broadcast (ev : string) (msg : Payload) : M bool :=
  r ← this;
  io_emit (roomId r) ev msg;;
  mret true.

(** [console.error] is not modelled. *)
Definition handleError (error : JSError) (context : string) : M unit :=
  broadcast "errorOccurred"
    (ErrorOccurred "An unexpected error occurred in the game" (error_toString error));;
  mret tt.

(** [username] is [None] when the caller passes [undefined]. *)
Definition getUserSocket (username : option string) (r : GameRoom) : option string :=
  u ← username; socketId <$> map_get u (playersMap r).

Definition template_name (username : option string) : string :=
  default "undefined" username.

Definition sendToPlayer (username : option string) (ev : string) (msg : Payload) : M bool :=
  r ← this;
  match getUserSocket username r with
  | Some (String c s) => io_emit (String c s) ev msg;; mret true
  | _ =>
      handleError
        (Error ("No socket was found in the player map for player " ++ template_name username))
        ("sending message to " ++ template_name username);;
      mret false
  end.

Definition addPlayer (username socket : string) : M bool :=
  r ← this;
  if (maxPlayers r <=? length (playersMap r))%nat then
    handleError (Error "Room is full") ("adding player " ++ username);;
    mret false
  else if map_has username (playersMap r) then
    handleError (Error ("Player " ++ username ++ " already exists")) ("adding player " ++ username);;
    mret false
  else
    try_catch
      (assign (set_playersMap (map_set username (mkPlayer socket 0) (playersMap r)));;
       mret true)
      (fun error => handleError error ("adding player " ++ username);; mret false).

Definition isWordUsed (word : string) (r : GameRoom) : bool :=
  bool_decide (toLowerCase word ∈ usedWordSet r).

Definition addUsedWords (word : string) : M unit :=
  r ← this;
  assign (set_usedWordSet ({[toLowerCase word]} ∪ usedWordSet r));;
  assign (set_lastWord (Some (toLowerCase word))).

(** [player.points += points] on integers: the sum of the two JavaScript
    numbers as long as amount, score and sum are safe integers. *)
Definition addPoints (username : option string) (pts : Z) : M bool :=
  r ← this;
  match username ≫= (fun u => (u,.) <$> map_get u (playersMap r)) with
  | Some (u, player) =>
      assign (set_playersMap
                (map_set u (mkPlayer (socketId player) (points player + pts)) (playersMap r)));;
      mret true
  | None => mret false
  end.

Definition initializeTurnOrder : M unit :=
  r ← this;
  assign (set_turnOrder
            (creatorUsername r ::
             shuffle (filter (fun username => username ≠ creatorUsername r)
                             (map_keys (playersMap r)))));;
  assign (set_currentTurnIndex (Some 0%nat));;
  r ← this;
  assign (set_currentTurn (turnOrder r !! 0%nat)).

Definition isPlayerTurn (username : string) (r : GameRoom) : bool :=
  bool_decide (currentTurn r = Some username).

(** [file] is what [fs.readFileSync] gives for words.txt: its text, or the
    error it throws. *)
Definition loadWordList (file : JSError + string) : M WordList :=
  try_catch
    (match file with
     | inr text =>
         let wordList :=
           filter (fun word => (0 < String.length word)%nat)
                  ((fun word => trim (toLowerCase word)) <$> split_lines text) in
         mret (WordSet (list_to_set wordList))
     | inl error => throw error
     end)
    (fun error =>
       handleError error "loading word list";;
       b ← broadcast "redirectMainPage"
             (RedirectMainPage "There was an issue loading the word list, redirecting ..."
                               (error_toString error));
       mret (NotASet b)).

(** [this.validWords.has(...)]: only a [Set] has the method. *)
Definition isValidWord (word : string) : M bool :=
  r ← this;
  match validWords r with
  | WordSet words => mret (bool_decide (trim (toLowerCase word) ∈ words))
  | NotASet _ => throw (TypeError "this.validWords.has")
  | Unassigned => throw (TypeError "this.validWords.has")
  end.

Definition nextTurn : M (option string) :=
  r ← this;
  assign (set_currentTurnIndex (succ_mod (currentTurnIndex r) (length (turnOrder r))));;
  r ← this;
  assign (set_currentTurn (at_index (turnOrder r) (currentTurnIndex r)));;
  r ← this;
  broadcast "turnChanged" (TurnChanged (currentTurn r));;
  mret (currentTurn r).

(** [!this.lastWord]: [null] and the empty string are falsy. *)
Definition no_lastWord (r : GameRoom) : bool :=
  match lastWord r with
  | None | Some EmptyString => true
  | Some _ => false
  end.

Definition validateWordPlay (username word : string) : M Validation :=
  try_catch
    (r ← this;
     if negb (isPlayerTurn username r) then
       mret (mkValidation false "Not your turn")
     else
       inDictionary ← isValidWord word;
       if negb inDictionary then
         mret (mkValidation false "Not a valid word")
       else if no_lastWord r then
         mret (mkValidation true "First word")
       else
         let lastChar := toLowerCase (slice_last (default "" (lastWord r))) in
         let firstChar := toLowerCase (charAt0 word) in
         if negb (String.eqb firstChar lastChar) then
           mret (mkValidation false ("Word must start with '" ++ lastChar ++ "'"))
         else if bool_decide (toLowerCase word ∈ usedWordSet r) then
           mret (mkValidation false "Word has been used before")
         else
           mret (mkValidation true "Valid word"))
    (fun error =>
       handleError error ("validating word play for " ++ username);;
       mret (mkValidation false "An unexpected error occurred during word validation")).

(** [if (timer) { clearTimeout(timer); }] *)
Definition clear_if_set (t : option nat) : M unit :=
  match t with
  | Some h => clearTimeout h
  | None => mret tt
  end.

Definition startRound : M unit :=
  r ← this;
  clear_if_set (roundTimer r);;
  h ← setTimeout CbHandleRoundTimeout (30 * 1000);
  assign (set_roundTimer (Some h));;
  r ← this;
  sendToPlayer (currentTurn r) "yourTurn" (YourTurn 30);;
  mret tt.

Definition playWord (username word : string) : M bool :=
  validation ← validateWordPlay username word;
  if negb (valid validation) then
    sendToPlayer (Some username) "wordPlayFailed" (WordPlayFailed (reason validation));;
    mret false
  else
    try_catch
      (r ← this;
       clear_if_set (roundTimer r);;
       addPoints (Some username) (Z.of_nat (String.length word));;
       addUsedWords word;;
       broadcast "wordPlayed" (WordPlayed username word (Z.of_nat (String.length word)));;
       nextTurn;;
       startRound;;
       mret true)
      (fun error =>
         handleError error ("processing word play for " ++ username);;
         sendToPlayer (Some username) "wordPlayFailed"
           (WordPlayFailed "An error occurred while processing your word");;
         mret false).

(** The names [endGame()] can resolve besides [this]: it has no parameter
    and declares no local, and neither the module ([fs], [path], [GameRoom])
    nor the host ([io]) binds [username] or [word]. *)
Definition endGame_scope : list (string * string) := [].

(** Reading an identifier: its value, or a [ReferenceError]. *)
Definition identifier (scope : list (string * string)) (x : string) : M string :=
  match (list_find (fun b => b.1 = x) scope) with
  | Some (_, b) => mret b.2
  | None => throw (ReferenceError x)
  end.

(** The body of [endGame()] is the body of [playWord(username, word)], word
    for word, with [username] and [word] free. *)
Definition endGame : M bool :=
  username ← identifier endGame_scope "username";
  word ← identifier endGame_scope "word";
  playWord username word.

Definition removePlayer (username : string) : M bool :=
  try_catch
    (r ← this;
     if map_has username (playersMap r) then
       assign (set_playersMap (map_delete username (playersMap r)));;
       match indexOf username (turnOrder r) with
       | Some playerIndex => assign (set_turnOrder (delete playerIndex (turnOrder r)))
       | None => mret tt
       end;;
       r ← this;
       (if bool_decide (currentTurn r = Some username) then
          (if (0 <? length (turnOrder r))%nat then
             assign (set_currentTurnIndex
                       (succ_mod (currentTurnIndex r) (length (turnOrder r))));;
             r ← this;
             assign (set_currentTurn (at_index (turnOrder r) (currentTurnIndex r)))
           else
             endGame;; mret tt);;
          r ← this;
          broadcast "turnChanged" (TurnChanged (currentTurn r));;
          mret tt
        else mret tt);;
       mret true
     else mret false)
    (fun error => handleError error ("removing player " ++ username);; mret false).

Definition startGame : M bool :=
  r ← this;
  if isGameStarted r then mret false
  else if (length (playersMap r) <? 2)%nat then
    broadcast "gameStartedFailed" (GameStartedFailed "Not enough players");;
    mret false
  else
    initializeTurnOrder;;
    assign (set_isGameStarted true);;
    assign (set_isGameEnded false);;
    assign (set_usedWordSet ∅);;
    assign (set_lastWord None);;
    h ← setTimeout CbEndGame (30 * 60 * 1000);
    assign (set_gameEndTimer (Some h));;
    r ← this;
    broadcast "gameStarted" (GameStarted (currentTurn r) (turnOrder r));;
    startRound;;
    mret true.

Definition handleRoundTimeout : M unit :=
  r ← this;
  addPoints (currentTurn r) 0;;
  broadcast "turnTimedOut" (TurnTimedOut (currentTurn r));;
  nextTurn;;
  startRound.

(** The loop of [determineWinner]: one player, the running maximum and the
    winners so far. *)
Definition winner_step (acc : Z * list string) (entry : string * PlayerData)
  : Z * list string :=
  let '(maxPoints, winners) := acc in
  let '(username, playerData) := entry in
  if (maxPoints <? points playerData)%Z then (points playerData, [username])
  else if (points playerData =? maxPoints)%Z then (maxPoints, winners ++ [username])
  else (maxPoints, winners).

Definition determineWinner (r : GameRoom) : list string :=
  (foldl winner_step (-1, []) (playersMap r)).2.

Definition clearGameTimers : M unit :=
  r ← this;
  match gameEndTimer r with
  | Some h => clearTimeout h;; assign (set_gameEndTimer None)
  | None => mret tt
  end;;
  match roundTimer r with
  | Some h => clearTimeout h;; assign (set_roundTimer None)
  | None => mret tt
  end;;
  match roomExpiryTimer r with
  | Some h => clearTimeout h;; assign (set_roomExpiryTimer None)
  | None => mret tt
  end.

Definition deleteRoom (why : string) : M unit :=
  clearGameTimers;;
  r ← this;
  clear_if_set (roomExpiryTimer r);;
  broadcast "roomDeleted" (RoomDeleted why);;
  mret tt.

(** [new GameRoom(creatorUsername, roomId, creatorSocketId)] at time [now]
    (milliseconds), on a host whose words.txt reads as [file]. *)
Definition new_GameRoom (now : Z) (file : JSError + string)
    (creator room creatorSocketId : string) (host : Host) : World :=
  let '(_, (r, host)) :=
    (h ← setTimeout (CbDeleteRoom "Room expired") (60 * 60 * 1000);
     assign (set_roomExpiryTimer (Some h));;
     words ← loadWordList file;
     assign (set_validWords words))
      (mkRoom creator room now (now + 60 * 60 * 1000) (now + 30 * 60 * 1000)
         true false false 4 [(creator, mkPlayer creatorSocketId 0)] ∅ None
         None None None None (Some creator) [] (Some 0%nat) Unassigned,
       host) in
  (r, host).

(** *** Timers firing and the calls a room receives *)

(** The host runs the callback of an armed timer, once. *)
Definition fire (h : nat) : M unit := fun w =>
  match list_find (fun t => handle t = h) (pending w.2) with
  | Some (_, t) =>
      let w' := (w.1, mkHost (outbox w.2)
                        (filter (fun t => handle t ≠ h) (pending w.2))
                        (nextTimer w.2)) in
      match callback t with
      | CbDeleteRoom why => deleteRoom why w'
      | CbEndGame => (endGame;; mret tt) w'
      | CbHandleRoundTimeout => handleRoundTimeout w'
      end
  | None => (Return tt, w)
  end.

(** The state-changing methods, as the router, a timer or any other holder
    of the room may call them. *)
Inductive Call : Type :=
| AddPlayer (username socket : string)
| RemovePlayer (username : string)
| AddUsedWords (word : string)
| AddPoints (username : option string) (pts : Z)
| InitializeTurnOrder
| NextTurn
| PlayWord (username word : string)
| StartGame
| StartRound
| HandleRoundTimeout
| EndGame
| DeleteRoom (why : string)
| ClearGameTimers
| Fire (h : nat).

Definition call (c : Call) : M unit :=
  match c with
  | AddPlayer username socket => addPlayer username socket;; mret tt
  | RemovePlayer username => removePlayer username;; mret tt
  | AddUsedWords word => addUsedWords word
  | AddPoints username pts => addPoints username pts;; mret tt
  | InitializeTurnOrder => initializeTurnOrder
  | NextTurn => nextTurn;; mret tt
  | PlayWord username word => playWord username word;; mret tt
  | StartGame => startGame;; mret tt
  | StartRound => startRound
  | HandleRoundTimeout => handleRoundTimeout
  | EndGame => endGame;; mret tt
  | DeleteRoom why => deleteRoom why
  | ClearGameTimers => clearGameTimers
  | Fire h => fire h
  end.

(** The world after a call; an exception leaves what was written. *)
Definition step (c : Call) (w : World) : World := (call c w).2.

Inductive reachable : World -> Prop :=
| reachable_new now file creator room socket host :
    reachable (new_GameRoom now file creator room socket host)
| reachable_step c w :
    reachable w -> reachable (step c w).

End GameRoom.

(** ** The earlier draft of the room kept beside the router *)

Module Legacy.

(** [determineWinner] of the draft: one winner, or [null]. *)
Definition determineWinner (r : GameRoom) : option string :=
  (foldl (fun (acc : option string * Z) (entry : string * PlayerData) =>
            if (acc.2 <? points entry.2)%Z then (Some entry.1, points entry.2)
            else acc)
         (None, -1) (playersMap r)).1.

End Legacy.

(** ** The router's end-game handler and the user table behind it *)

Module Router.

Record UserStats : Type := mkStats {
  gamesPlayed : Z;
  gamesWon : Z
}.

(** The two statements the handler sends to the connection pool. *)
Inductive Query : Type :=
| SelectStats (username : string)
| UpdateStats (username : string) (played won : Z).

(** The registry of rooms, what was emitted, the [Users] table by username
    (its two counters), and what [console.error] printed. *)
Record State : Type := mkState {
  rooms : gmap string GameRoom;
  net : list Emit;
  users : gmap string UserStats;
  console : list string
}.

Section Persistence.

(** The error, if any, with which the pool answers a statement. *)
Variable pool_error : Query -> option JSError.

(** [userModel.getUserStatsByUsername]: rejects on a pool error and when
    no row has the username. *)
Definition getUserStatsByUsername (username : string) (s : State)
  : JSError + UserStats :=
  match pool_error (SelectStats username) with
  | Some error => inl error
  | None =>
      match users s !! username with
      | Some row => inr row
      | None => inl (Error "User not found")
      end
  end.

(** [userModel.updateUserStatsByUserName]: rejects on a pool error, and
    otherwise rewrites the counters of the rows with the username. *)
Definition updateUserStatsByUserName (username : string) (played won : Z) (s : State)
  : JSError + State :=
  match pool_error (UpdateStats username played won) with
  | Some error => inl error
  | None =>
      inr (mkState (rooms s) (net s)
             (alter (fun _ => mkStats played won) username (users s)) (console s))
  end.

Definition console_error (line : string) (s : State) : State :=
  mkState (rooms s) (net s) (users s) (console s ++ [line]).

Definition emit (t ev : string) (msg : Payload) (s : State) : State :=
  mkState (rooms s) (net s ++ [mkEmit t ev msg]) (users s) (console s).

(** One turn of the loop over the winners: the inner [try] and its
    [catch], which only logs. *)
Definition update_winner (s : State) (winner : string) : State :=
  match getUserStatsByUsername winner s with
  | inr userStats =>
      match updateUserStatsByUserName winner
              (gamesPlayed userStats + 1) (gamesWon userStats + 1) s with
      | inr s' => s'
      | inl statsError =>
          console_error ("Error updating stats for " ++ winner ++ ":") s
      end
  | inl statsError =>
      console_error ("Error updating stats for " ++ winner ++ ":") s
  end.

(** [socketEvents.endGame(socket, { roomId })], run without another
    handler between its [await]s. *)
Definition endGame (socket room : string) (s : State) : State :=
  match rooms s !! room with
  | None => emit socket "errorOccurred" (RouterError "Room not found") s
  | Some r =>
      let winners := determineWinner r in
      let s1 := foldl update_winner s winners in
      let s2 := emit room "gameEnded" (GameEnded winners (playersMap r)) s1 in
      mkState (delete room (rooms s2)) (net s2) (users s2) (console s2)
  end.

End Persistence.

End Router.

(** * Specifications

    What the properties below are stated with: invariants and outcomes of
    methods, the rooms some methods leave, the greatest score of a map. *)

(** [m] keeps the invariant [I] of the room, however it ends. *)
Definition preserves {A : Type} (I : GameRoom -> Prop) (m : M A) : Prop :=
  forall w : World, I w.1 -> I (m w).2.1.

(** The last word, when there is one, is among the used words. *)
Definition lastWord_used (r : GameRoom) : Prop :=
  forall x : string, lastWord r = Some x -> x ∈ usedWordSet r.

(** The players map has no key twice and no negative score. *)
Definition players_ok (r : GameRoom) : Prop :=
  NoDup (map_keys (playersMap r)) /\
  Forall (fun entry : string * PlayerData => 0 <= points entry.2) (playersMap r).

(** [Number.isSafeInteger]: the integers up to 2^53 - 1 either way.  The sum
    of two of them, when it is one of them, is the sum JavaScript computes;
    beyond them a sum of numbers is rounded. *)
Definition isSafeInteger (z : Z) : Prop :=
  - 9007199254740991 <= z <= 9007199254740991.

(** The players map has no key twice. *)
Definition unique_names (r : GameRoom) : Prop := NoDup (map_keys (playersMap r)).

(** The call is not [addPoints] with a negative amount. *)
Definition nonneg_amount (c : Call) : Prop :=
  match c with
  | AddPoints _ pts => 0 <= pts
  | _ => True
  end.

(** [wp m Q w]: run from [w], the method [m] ends with an outcome and a
    world that satisfy [Q]. *)
Definition wp {A : Type} (m : M A) (Q : Outcome A -> World -> Prop) (w : World) : Prop :=
  Q (m w).1 (m w).2.

(** The room a successful [startGame] leaves, on a host whose next timer
    handle is [t]. *)
Definition started_room (shuffle : list string -> list string) (r : GameRoom)
    (t : nat) : GameRoom :=
  set_roundTimer (Some (S t))
    (set_gameEndTimer (Some t)
       (set_lastWord None
          (set_usedWordSet ∅
             (set_isGameEnded false
                (set_isGameStarted true
                   (set_currentTurn (Some (creatorUsername r))
                      (set_currentTurnIndex (Some 0%nat)
                         (set_turnOrder
                            (creatorUsername r ::
                             shuffle (filter (fun username => username ≠ creatorUsername r)
                                             (map_keys (playersMap r))))
                            r)))))))).

(** The turn order once [username] is spliced out of it. *)
Definition spliced (username : string) (l : list string) : list string :=
  match indexOf username l with
  | Some playerIndex => delete playerIndex l
  | None => l
  end.

(** The room [removePlayer(username)] leaves when the turn order does not
    run empty: the player is gone from the map and from the turn order, and
    when the player held the turn, the index moves one place on, modulo the
    new length. *)
Definition room_without (username : string) (r : GameRoom) : GameRoom :=
  let order := spliced username (turnOrder r) in
  let r1 := set_turnOrder order (set_playersMap (map_delete username (playersMap r)) r) in
  if bool_decide (currentTurn r = Some username) then
    let i := succ_mod (currentTurnIndex r) (length order) in
    set_currentTurn (at_index order i) (set_currentTurnIndex i r1)
  else r1.

(** The greatest score of the map, or -1 for no player. *)
Definition max_points (m : PlayersMap) : Z :=
  foldr (fun entry acc => Z.max (points entry.2) acc) (-1) m.

(** The players with score [mx], in the order of the map. *)
Definition tied_at (mx : Z) (m : PlayersMap) : list string :=
  (filter (fun entry : string * PlayerData => points entry.2 = mx) m).*1.

(** The error [addPlayer] hands to [handleError] when it refuses. *)
Definition addPlayer_refusal (username : string) (r : GameRoom) : JSError :=
  if (maxPlayers r <=? length (playersMap r))%nat then Error "Room is full"
  else Error ("Player " ++ username ++ " already exists").

(** The room is one of four players at most, and holds no more. *)
Definition within_capacity (r : GameRoom) : Prop :=
  maxPlayers r = 4%nat /\ (length (playersMap r) <= 4)%nat.

(** The notice [startRound] sends to the player whose turn it is, or the
    broadcast that replaces it when that player has no socket in the map. *)
Definition turn_notice (username : option string) (r : GameRoom) : Emit :=
  match getUserSocket username r with
  | Some (String c s) => mkEmit (String c s) "yourTurn" (YourTurn 30)
  | _ =>
      mkEmit (roomId r) "errorOccurred"
        (ErrorOccurred "An unexpected error occurred in the game"
           ("Error: No socket was found in the player map for player "
            ++ template_name username))
  end.

(** The armed timers once [clearTimeout] has been called on a field. *)
Definition cleared (t : option nat) (timers : list Timer) : list Timer :=
  match t with
  | Some x => filter (fun timer => handle timer ≠ x) timers
  | None => timers
  end.

(** The room once [addPoints(username, pts)] has run. *)
Definition scored (username : option string) (pts : Z) (r : GameRoom) : GameRoom :=
  match username ≫= (fun u => (u,.) <$> map_get u (playersMap r)) with
  | Some (u, player) =>
      set_playersMap
        (map_set u (mkPlayer (socketId player) (points player + pts)) (playersMap r)) r
  | None => r
  end.

(** The room once [addUsedWords(word)] has run. *)
Definition word_used (word : string) (r : GameRoom) : GameRoom :=
  set_lastWord (Some (toLowerCase word))
    (set_usedWordSet ({[toLowerCase word]} ∪ usedWordSet r) r).

(** The room once [nextTurn()] has run. *)
Definition turn_passed (r : GameRoom) : GameRoom :=
  set_currentTurn
    (at_index (turnOrder r) (succ_mod (currentTurnIndex r) (length (turnOrder r))))
    (set_currentTurnIndex (succ_mod (currentTurnIndex r) (length (turnOrder r))) r).

(** The room an accepted [playWord(username, word)] leaves, on a host whose
    next timer handle is [t]. *)
Definition played_room (username word : string) (r : GameRoom) (t : nat) : GameRoom :=
  set_roundTimer (Some t)
    (turn_passed
       (word_used word (scored (Some username) (Z.of_nat (String.length word)) r))).

(** The game is started and the words of [kept] are used. *)
Definition started_with (kept : gset string) (r : GameRoom) : Prop :=
  isGameStarted r = true /\ kept ⊆ usedWordSet r.

(** [n] calls of [nextTurn()] in a row. *)
Fixpoint turns (n : nat) (w : World) : World :=
  match n with
  | O => w
  | S n => (nextTurn (turns n w)).2
  end.

(** The set [loadWordList] builds from the text of words.txt. *)
Definition loaded_words (text : string) : gset string :=
  list_to_set
    (filter (fun word => (0 < String.length word)%nat)
            ((fun word => trim (toLowerCase word)) <$> split_lines text)).

(** Every armed timer is the one a field of the room holds: a room-expiry
    timer is in [roomExpiryTimer], a game-end timer is in [gameEndTimer] of
    a started game, a round timer is in [roundTimer]; handles are distinct
    and below the next fresh one. *)
Definition timers_ok (w : World) : Prop :=
  NoDup (handle <$> pending w.2) /\
  (forall t, t ∈ pending w.2 -> (handle t < nextTimer w.2)%nat) /\
  (forall t, t ∈ pending w.2 ->
     match callback t with
     | CbDeleteRoom _ => roomExpiryTimer w.1 = Some (handle t)
     | CbEndGame => gameEndTimer w.1 = Some (handle t) /\ isGameStarted w.1 = true
     | CbHandleRoundTimeout => roundTimer w.1 = Some (handle t)
     end).

(** [m] keeps the invariant [J] of the world, however it ends. *)
Definition keeps {A : Type} (J : World -> Prop) (m : M A) : Prop :=
  forall w : World, J w -> J (m w).2.

(** The world after a list of calls, first call first. *)
Definition run (shuffle : list string -> list string) (calls : list Call) (w : World) : World :=
  foldl (fun w c => step shuffle c w) w calls.

(** The room with its three timer fields [null]. *)
Definition disarmed (r : GameRoom) : GameRoom :=
  set_roomExpiryTimer None (set_roundTimer None (set_gameEndTimer None r)).

#[export] Instance TimerCallback_eq_dec : EqDecision TimerCallback.
Proof. solve_decision. Defined.

(** What a callback's timer is held in. *)
Definition held_in (r : GameRoom) (cb : TimerCallback) : option nat :=
  match cb with
  | CbDeleteRoom _ => roomExpiryTimer r
  | CbEndGame => gameEndTimer r
  | CbHandleRoundTimeout => roundTimer r
  end.

(** [m] returns from every world: it never throws. *)
Definition returns {A : Type} (m : M A) : Prop :=
  forall w : World, exists a, (m w).1 = Return a.

(** * Rooms to run

    Three players, a five-word dictionary, and the worlds a few calls lead
    to. *)

Definition words_txt : string := "Apple
egg
  Elephant 
goat

tiger
".

Definition host0 : Host := mkHost [] [] 0.

(** A shuffle that leaves the order as it is. *)
Definition in_order (l : list string) : list string := l.

(** The room A creates, and the lobby once B and C have joined. *)
Definition lobby : World := new_GameRoom 0 (inr words_txt) "A" "room_1" "sA" host0.

Definition lobby3 : World :=
  step in_order (AddPlayer "C" "sC") (step in_order (AddPlayer "B" "sB") lobby).

(** The game of A, B and C, started; A holds the turn. *)
Definition started3 : World := step in_order StartGame lobby3.

(** The same game after "Apple" from A: B holds the turn. *)
Definition played3 : World := step in_order (PlayWord "A" "Apple") started3.

(** What [loadWordList] makes of [words_txt]. *)
Definition dictionary : gset string :=
  list_to_set ["apple"; "egg"; "elephant"; "goat"; "tiger"].

(** A game of two, A and B, started; A holds the turn. *)
Definition started2 : World :=
  step in_order StartGame (step in_order (AddPlayer "B" "sB") lobby).

(** The lobby of A, B and C after the creator A has left. *)
Definition lobby_without_creator : World := step in_order (RemovePlayer "A") lobby3.

(** A tie at the top: A and B have five points each, C has three. *)
Definition tie_room : GameRoom :=
  set_playersMap
    [("A", mkPlayer "sA" 5); ("C", mkPlayer "sC" 3); ("B", mkPlayer "sB" 5)]
    lobby3.1.

(** The pool loses the connection on A's row and answers for the others. *)
Definition pool_fails_for_A (q : Router.Query) : option JSError :=
  match q with
  | Router.SelectStats "A" => Some (Error "Connection lost")
  | _ => None
  end.

(** The router with the tied room registered and three user rows. *)
Definition router0 : Router.State :=
  Router.mkState {["room_1" := tie_room]} []
    {["A" := Router.mkStats 3 1; "B" := Router.mkStats 7 2; "C" := Router.mkStats 4 0]} [].

(** The room whose words.txt could not be read, started by A and B. *)
Definition started_without_words : World :=
  step in_order StartGame
    (step in_order (AddPlayer "B" "sB")
       (new_GameRoom 0 (inl (Error "ENOENT")) "A" "room_1" "sA" host0)).

(** * Properties *)

(** ** Invariants of the room through the monad *)

Section Preservation.

Context {A B : Type} (I : GameRoom -> Prop).

Lemma preserves_ret (a : A) : preserves I (mret a).
Proof. intros w Hw. exact Hw. Qed.

Lemma preserves_throw (e : JSError) : preserves I (throw e : M A).
Proof. intros w Hw. exact Hw. Qed.

Lemma preserves_bind (m : M A) (k : A -> M B) :
  preserves I m -> (forall a, preserves I (k a)) -> preserves I (m ≫= k).
Proof.
  intros Hm Hk w Hw. specialize (Hm w Hw).
  unfold mbind, M_bind. destruct (m w) as [[a|e] w']; simpl in *.
  - by apply Hk.
  - done.
Qed.

Lemma preserves_try_catch (m : M A) (h : JSError -> M A) :
  preserves I m -> (forall e, preserves I (h e)) -> preserves I (try_catch m h).
Proof.
  intros Hm Hh w Hw. specialize (Hm w Hw).
  unfold try_catch. destruct (m w) as [[a|e] w']; simpl in *.
  - done.
  - by apply Hh.
Qed.

End Preservation.

Lemma preserves_this I : preserves I this.
Proof. intros w Hw. exact Hw. Qed.

Lemma preserves_io_emit I t ev msg : preserves I (io_emit t ev msg).
Proof. intros w Hw. exact Hw. Qed.

Lemma preserves_setTimeout I cb ms : preserves I (setTimeout cb ms).
Proof. intros w Hw. exact Hw. Qed.

Lemma preserves_clearTimeout I h : preserves I (clearTimeout h).
Proof. intros w Hw. exact Hw. Qed.

Lemma preserves_assign (I : GameRoom -> Prop) f :
  (forall r, I r -> I (f r)) -> preserves I (assign f).
Proof. intros Hf w Hw. by apply Hf. Qed.

(** A timer keeps what its three callbacks keep. *)
Lemma fire_preserves (I : GameRoom -> Prop) (h : nat) :
  (forall why, preserves I (deleteRoom why)) ->
  preserves I endGame ->
  preserves I handleRoundTimeout ->
  preserves I (fire h).
Proof.
  intros Hdelete Hend Hround [r host] Hr. unfold fire.
  destruct (list_find _ _) as [[i t]|]; [ | exact Hr ].
  destruct (callback t).
  - by apply Hdelete.
  - apply (preserves_bind I endGame).
    + exact Hend.
    + intros a. apply preserves_ret.
    + exact Hr.
  - by apply Hround.
Qed.

(** What every new room satisfies and every call keeps holds of every
    reachable world. *)
Lemma reachable_invariant (I : GameRoom -> Prop) (shuffle : list string -> list string) :
  (forall now file creator room socket host,
      I (new_GameRoom now file creator room socket host).1) ->
  (forall c, preserves I (call shuffle c)) ->
  forall w, reachable shuffle w -> I w.1.
Proof.
  intros Hnew Hcall w. induction 1 as [ | c w _ IH ].
  - apply Hnew.
  - by apply Hcall.
Qed.

Create HintDb room_inv.

#[export] Hint Resolve preserves_this preserves_io_emit preserves_setTimeout
  preserves_clearTimeout : room_inv.

Ltac head_of t :=
  lazymatch t with
  | ?f _ => head_of f
  | _ => t
  end.

(** Walks a method: binds, catches and branches, then the leaves, a field
    assignment being left to [side]; a method without a lemma in [room_inv]
    is opened. *)
Ltac preserve_step side :=
  lazymatch goal with
  | |- preserves _ (_ ≫= _) => apply preserves_bind; [ | intros ? ]
  | |- preserves _ (try_catch _ _) => apply preserves_try_catch; [ | intros ? ]
  | |- preserves _ (mret _) => apply preserves_ret
  | |- preserves _ (throw _) => apply preserves_throw
  | |- preserves _ (assign _) => apply preserves_assign; solve [ side ]
  | |- preserves _ (let _ := _ in _) => cbv zeta
  | |- preserves _ (match ?x with _ => _ end) => destruct x
  | |- preserves _ ?m =>
      first [ solve [ auto with room_inv ]
            | let h := head_of m in progress (unfold h) ]
  end.

Ltac preserve side := repeat (preserve_step side).

(** ** The last word is a used word *)

(** The side condition of a field assignment that leaves the words alone. *)
Ltac same_words := let r := fresh in let H := fresh in intros r H; exact H.

Lemma broadcast_lastWord_used ev msg : preserves lastWord_used (broadcast ev msg).
Proof. unfold broadcast. preserve same_words. Qed.

#[export] Hint Resolve broadcast_lastWord_used : room_inv.

Lemma handleError_lastWord_used e c : preserves lastWord_used (handleError e c).
Proof. unfold handleError. preserve same_words. Qed.

#[export] Hint Resolve handleError_lastWord_used : room_inv.

Lemma sendToPlayer_lastWord_used u ev msg : preserves lastWord_used (sendToPlayer u ev msg).
Proof. unfold sendToPlayer. preserve same_words. Qed.

Lemma addPlayer_lastWord_used u s : preserves lastWord_used (addPlayer u s).
Proof. unfold addPlayer. preserve same_words. Qed.

Lemma addPoints_lastWord_used u p : preserves lastWord_used (addPoints u p).
Proof. unfold addPoints. preserve same_words. Qed.

(** [addUsedWords] writes the set first and the last word second: the old
    last word stays in the grown set, the new one was just put there. *)
Lemma addUsedWords_lastWord_used word : preserves lastWord_used (addUsedWords word).
Proof.
  intros [r h] _ x. unfold addUsedWords, lastWord_used; simpl.
  intros [= <-]. set_solver.
Qed.

Lemma addUsedWords_sets word (w : World) :
  let r' := (addUsedWords word w).2.1 in
  lastWord r' = Some (toLowerCase word) /\
  usedWordSet r' = {[toLowerCase word]} ∪ usedWordSet w.1.
Proof. destruct w as [r h]. split; reflexivity. Qed.

Lemma loadWordList_lastWord_used file : preserves lastWord_used (loadWordList file).
Proof. unfold loadWordList. preserve same_words. Qed.

Lemma isValidWord_lastWord_used word : preserves lastWord_used (isValidWord word).
Proof. unfold isValidWord. preserve same_words. Qed.

Lemma nextTurn_lastWord_used : preserves lastWord_used nextTurn.
Proof. unfold nextTurn. preserve same_words. Qed.

#[export] Hint Resolve sendToPlayer_lastWord_used addPlayer_lastWord_used
  addPoints_lastWord_used addUsedWords_lastWord_used loadWordList_lastWord_used
  isValidWord_lastWord_used nextTurn_lastWord_used : room_inv.

Lemma validateWordPlay_lastWord_used u word :
  preserves lastWord_used (validateWordPlay u word).
Proof. unfold validateWordPlay. preserve same_words. Qed.

Lemma startRound_lastWord_used : preserves lastWord_used startRound.
Proof. unfold startRound, clear_if_set. preserve same_words. Qed.

#[export] Hint Resolve validateWordPlay_lastWord_used startRound_lastWord_used : room_inv.

Lemma playWord_lastWord_used u word : preserves lastWord_used (playWord u word).
Proof. unfold playWord, clear_if_set. preserve same_words. Qed.

#[export] Hint Resolve playWord_lastWord_used : room_inv.

Lemma endGame_lastWord_used : preserves lastWord_used endGame.
Proof. unfold endGame, identifier. preserve same_words. Qed.

#[export] Hint Resolve endGame_lastWord_used : room_inv.

Lemma removePlayer_lastWord_used u : preserves lastWord_used (removePlayer u).
Proof. unfold removePlayer. preserve same_words. Qed.

Lemma handleRoundTimeout_lastWord_used : preserves lastWord_used handleRoundTimeout.
Proof. unfold handleRoundTimeout. preserve same_words. Qed.

Lemma clearGameTimers_lastWord_used : preserves lastWord_used clearGameTimers.
Proof. unfold clearGameTimers. preserve same_words. Qed.

#[export] Hint Resolve removePlayer_lastWord_used handleRoundTimeout_lastWord_used
  clearGameTimers_lastWord_used : room_inv.

Lemma deleteRoom_lastWord_used why : preserves lastWord_used (deleteRoom why).
Proof. unfold deleteRoom, clear_if_set. preserve same_words. Qed.

#[export] Hint Resolve deleteRoom_lastWord_used : room_inv.

(** Game start empties the set and then forgets the last word: between the
    two writes the invariant may fail, after them it holds of any room. *)
Lemma reset_words_lastWord_used {A : Type} (rest : M A) :
  preserves lastWord_used rest ->
  preserves lastWord_used
    (assign (set_usedWordSet ∅);; assign (set_lastWord None);; rest).
Proof.
  intros Hrest [r h] _. unfold mbind, M_bind, assign; simpl.
  apply Hrest. intros x; simpl. discriminate.
Qed.

Section Reachable.

Variable shuffle : list string -> list string.

Lemma initializeTurnOrder_lastWord_used :
  preserves lastWord_used (initializeTurnOrder shuffle).
Proof. unfold initializeTurnOrder. preserve same_words. Qed.

Lemma startGame_lastWord_used : preserves lastWord_used (startGame shuffle).
Proof.
  unfold startGame.
  apply preserves_bind; [ apply preserves_this | intros r ].
  destruct (isGameStarted r); [ preserve same_words | ].
  destruct (length (playersMap r) <? 2)%nat; [ preserve same_words | ].
  apply preserves_bind; [ apply initializeTurnOrder_lastWord_used | intros _ ].
  do 2 (apply preserves_bind; [ preserve same_words | intros _ ]).
  apply reset_words_lastWord_used. preserve same_words.
Qed.

Lemma fire_lastWord_used h : preserves lastWord_used (fire h).
Proof. apply fire_preserves; auto with room_inv. Qed.

Lemma call_lastWord_used c : preserves lastWord_used (call shuffle c).
Proof.
  destruct c; simpl;
    auto using initializeTurnOrder_lastWord_used, fire_lastWord_used with room_inv;
    (apply preserves_bind; [ | intros ?; apply preserves_ret ]);
    auto using startGame_lastWord_used with room_inv.
Qed.

Lemma new_GameRoom_lastWord_used now file creator room socket host :
  lastWord_used (new_GameRoom now file creator room socket host).1.
Proof.
  unfold new_GameRoom.
  match goal with
  | |- context [ ?m (?r0, host) ] =>
      assert (Hm : preserves lastWord_used m) by preserve same_words;
      specialize (Hm (r0, host)); destruct (m (r0, host)) as [o [r h]]
  end.
  apply Hm. intros x; simpl. discriminate.
Qed.

Lemma reachable_lastWord_used w : reachable shuffle w -> lastWord_used w.1.
Proof.
  apply reachable_invariant;
    auto using new_GameRoom_lastWord_used, call_lastWord_used.
Qed.

End Reachable.


(** ** Running a method symbolically *)

Lemma wp_elim {A : Type} (m : M A) Q w o w' :
  wp m Q w -> m w = (o, w') -> Q o w'.
Proof. unfold wp. intros H E. rewrite E in H. exact H. Qed.

Lemma wp_mono {A : Type} (m : M A) (Q Q' : Outcome A -> World -> Prop) w :
  wp m Q w -> (forall o w', Q o w' -> Q' o w') -> wp m Q' w.
Proof. unfold wp. auto. Qed.

Lemma wp_ret {A : Type} (a : A) Q w : Q (Return a) w -> wp (mret a) Q w.
Proof. done. Qed.

Lemma wp_throw {A : Type} (e : JSError) (Q : Outcome A -> World -> Prop) w :
  Q (Throw e) w -> wp (throw e) Q w.
Proof. done. Qed.

Lemma wp_bind {A B : Type} (m : M A) (k : A -> M B) Q w :
  wp m (fun o w' => match o with
                    | Return a => wp (k a) Q w'
                    | Throw e => Q (Throw e) w'
                    end) w ->
  wp (m ≫= k) Q w.
Proof.
  unfold wp, mbind, M_bind. by destruct (m w) as [[a|e] w'].
Qed.

Lemma wp_try_catch {A : Type} (m : M A) (h : JSError -> M A) Q w :
  wp m (fun o w' => match o with
                    | Return a => Q (Return a) w'
                    | Throw e => wp (h e) Q w'
                    end) w ->
  wp (try_catch m h) Q w.
Proof.
  unfold wp, try_catch. by destruct (m w) as [[a|e] w'].
Qed.

Lemma wp_this Q w : Q (Return w.1) w -> wp this Q w.
Proof. done. Qed.

Lemma wp_assign f Q w : Q (Return tt) (f w.1, w.2) -> wp (assign f) Q w.
Proof. done. Qed.

Lemma wp_io_emit t ev msg Q w :
  Q (Return tt) (w.1, host_emit (mkEmit t ev msg) w.2) ->
  wp (io_emit t ev msg) Q w.
Proof. done. Qed.

Lemma wp_setTimeout cb ms Q w :
  Q (Return (nextTimer w.2))
    (w.1, mkHost (outbox w.2) (pending w.2 ++ [mkTimer (nextTimer w.2) cb ms])
            (S (nextTimer w.2))) ->
  wp (setTimeout cb ms) Q w.
Proof. done. Qed.

Lemma wp_clearTimeout h Q w :
  Q (Return tt)
    (w.1, mkHost (outbox w.2) (filter (fun t => handle t ≠ h) (pending w.2))
            (nextTimer w.2)) ->
  wp (clearTimeout h) Q w.
Proof. done. Qed.

(** [endGame()] stops at its first identifier. *)
Lemma endGame_unbound (w : World) :
  endGame w = (Throw (ReferenceError "username"), w).
Proof. reflexivity. Qed.

Lemma wp_endGame Q w : Q (Throw (ReferenceError "username")) w -> wp endGame Q w.
Proof. unfold wp. by rewrite endGame_unbound. Qed.

(** Reading a field of a room after field assignments, and nothing else. *)
Ltac fields :=
  cbn [fst snd
       creatorUsername roomId createdRoomTime roomExpiryTime gameEndTime
       isRoomActive isGameStarted isGameEnded maxPlayers playersMap usedWordSet
       lastWord roomExpiryTimer gameEndTimer roundTimer roomWinnerArray
       currentTurn turnOrder currentTurnIndex validWords
       set_isGameStarted set_isGameEnded set_playersMap set_usedWordSet
       set_lastWord set_roomExpiryTimer set_gameEndTimer set_roundTimer
       set_currentTurn set_turnOrder set_currentTurnIndex set_validWords
       outbox pending nextTimer] in *.

(** One step of a method: a branch is split, a method is opened. *)
Ltac wp_step :=
  lazymatch goal with
  | |- wp (_ ≫= _) _ _ => apply wp_bind
  | |- wp (try_catch _ _) _ _ => apply wp_try_catch
  | |- wp (mret _) _ _ => apply wp_ret
  | |- wp (throw _) _ _ => apply wp_throw
  | |- wp this _ _ => apply wp_this
  | |- wp (assign _) _ _ => apply wp_assign
  | |- wp (io_emit _ _ _) _ _ => apply wp_io_emit
  | |- wp (setTimeout _ _) _ _ => apply wp_setTimeout
  | |- wp (clearTimeout _) _ _ => apply wp_clearTimeout
  | |- wp endGame _ _ => apply wp_endGame
  | |- wp (let _ := _ in _) _ _ => cbv zeta
  | |- wp (match ?x with _ => _ end) _ _ => destruct x eqn:?
  | |- wp ?m _ _ => let h := head_of m in progress (unfold h)
  end; fields.

Ltac wp_run := repeat wp_step.

Section StartGame.

Variable shuffle : list string -> list string.

Lemma startGame_wp (r : GameRoom) (h : Host) :
  wp (startGame shuffle)
     (fun o w' =>
        o = Return true ->
        isGameStarted r = false /\ (2 <= length (playersMap r))%nat /\
        w'.1 = started_room shuffle r (nextTimer h))
     (r, h).
Proof.
  unfold startGame. wp_run; intros [=]; repeat split; try done.
  all: by apply Nat.ltb_ge.
Qed.

End StartGame.

(** ** The words of a game, the end of a game, the dictionary *)

(** C10. In every reachable world the last word, when there is one, is a
    member of the used words; [addUsedWords], the one method that sets the
    last word to a word, puts that same lower-case word in the set; and a
    game start, the one method that empties the set, leaves no last word. *)
Theorem lastWord_in_usedWords (shuffle : list string -> list string) (w : World) :
  reachable shuffle w ->
  (forall x, lastWord w.1 = Some x -> x ∈ usedWordSet w.1) /\
  (forall word,
      let r' := (addUsedWords word w).2.1 in
      lastWord r' = Some (toLowerCase word) /\ toLowerCase word ∈ usedWordSet r') /\
  (forall w', startGame shuffle w = (Return true, w') ->
      usedWordSet w'.1 = ∅ /\ lastWord w'.1 = None).
Proof.
  intros Hw. split; [ | split ].
  - by apply (reachable_lastWord_used shuffle).
  - intros word r'. destruct (addUsedWords_sets word w) as [Hl Hu].
    split; [ exact Hl | ]. subst r'. rewrite Hu. set_solver.
  - intros w' E. destruct w as [r h].
    destruct (wp_elim _ _ _ _ _ (startGame_wp shuffle r h) E eq_refl) as (_ & _ & ->).
    done.
Qed.

Lemma lastWord_in_usedWords_witness :
  "apple" ∈ usedWordSet
    (step in_order (PlayWord "A" "Apple") (step in_order StartGame lobby3)).1.
Proof.
  refine (proj1 (lastWord_in_usedWords in_order _ _) "apple" _).
  - unfold lobby3, lobby. repeat apply reachable_step. apply reachable_new.
  - vm_compute. reflexivity.
Defined.

(** C1. Whatever the room and the host, [endGame()] throws a
    [ReferenceError] on [username] before it reads or writes anything: it
    returns neither [true] nor [false], computes no winner, leaves the three
    phase flags and every timer as they were, and emits nothing. *)
Theorem endGame_throws_ReferenceError (w : World) :
  endGame w = (Throw (ReferenceError "username"), w).
Proof. apply endGame_unbound. Qed.

(** C7. When words.txt cannot be read, the constructor still returns a room
    and two room-wide notifications are emitted, but [validWords] is the
    boolean [broadcast] returned, not a set: [isValidWord] then throws a
    [TypeError] for every word instead of returning [false]. *)
Theorem loadWordList_failure_isValidWord_throws
    (now : Z) (error : JSError) (creator room socket : string) (host : Host)
    (word : string) :
  let w := new_GameRoom now (inl error) creator room socket host in
  validWords w.1 = NotASet true /\
  outbox w.2 =
    outbox host ++
    [mkEmit room "errorOccurred"
       (ErrorOccurred "An unexpected error occurred in the game" (error_toString error));
     mkEmit room "redirectMainPage"
       (RedirectMainPage "There was an issue loading the word list, redirecting ..."
                         (error_toString error))] /\
  forall host', isValidWord word (w.1, host') =
                (Throw (TypeError "this.validWords.has"), (w.1, host')).
Proof.
  cbv zeta. split; [ reflexivity | split ].
  - unfold new_GameRoom; simpl. by rewrite <- app_assoc.
  - reflexivity.
Qed.

(** ** The order of the checks of [validateWordPlay] *)

(** With a dictionary that is a set, no check throws: the answer is the
    cascade below and neither the room nor the host changes. *)
Lemma validateWordPlay_loaded (username word : string) (r : GameRoom) (h : Host)
    (words : gset string) :
  validWords r = WordSet words ->
  validateWordPlay username word (r, h) =
  (Return
     (if negb (isPlayerTurn username r) then mkValidation false "Not your turn"
      else if negb (bool_decide (trim (toLowerCase word) ∈ words)) then
        mkValidation false "Not a valid word"
      else if no_lastWord r then mkValidation true "First word"
      else if negb (String.eqb (toLowerCase (charAt0 word))
                      (toLowerCase (slice_last (default "" (lastWord r))))) then
        mkValidation false
          ("Word must start with '"
           ++ toLowerCase (slice_last (default "" (lastWord r))) ++ "'")
      else if bool_decide (toLowerCase word ∈ usedWordSet r) then
        mkValidation false "Word has been used before"
      else mkValidation true "Valid word"),
   (r, h)).
Proof.
  intros Hdict.
  unfold validateWordPlay, try_catch, isValidWord, mbind, M_bind, this.
  cbn [fst snd].
  destruct (negb (isPlayerTurn username r)); [ reflexivity | ].
  cbn [fst snd]. rewrite Hdict. cbn [mret M_ret].
  destruct (negb (bool_decide (trim (toLowerCase word) ∈ words))); [ reflexivity | ].
  destruct (no_lastWord r); [ reflexivity | ].
  cbv zeta.
  destruct (negb (String.eqb _ _)); [ reflexivity | ].
  destruct (bool_decide (toLowerCase word ∈ usedWordSet r)); reflexivity.
Qed.

(** Out of turn, the answer does not wait for the dictionary. *)
Lemma validateWordPlay_not_turn (username word : string) (r : GameRoom) (h : Host) :
  currentTurn r ≠ Some username ->
  validateWordPlay username word (r, h) =
  (Return (mkValidation false "Not your turn"), (r, h)).
Proof.
  intros Hturn.
  unfold validateWordPlay, try_catch, mbind, M_bind, this, isPlayerTurn.
  cbn [fst snd]. by rewrite bool_decide_eq_false_2.
Qed.

(** C5. [validateWordPlay] answers by the first check that applies, in
    the order turn, dictionary, first word, chain letter, reuse.  A word
    submitted out of turn is "Not your turn", whatever the word and the
    dictionary.  In turn and with the dictionary loaded, nothing is written
    or emitted, and: a word outside the dictionary is "Not a valid word"; a
    dictionary word played while there is no last word is accepted as
    "First word", whatever its first letter and whether or not it is in the
    used set; with a last word, a word that starts with another letter is
    rejected for its starting letter, also when it was used before; only
    then is a used word rejected for reuse, and any other word is
    accepted. *)
Theorem validateWordPlay_first_rejection (username word : string) (r : GameRoom)
    (h : Host) :
  let answer := validateWordPlay username word (r, h) in
  let lastChar := toLowerCase (slice_last (default "" (lastWord r))) in
  (currentTurn r ≠ Some username ->
     answer = (Return (mkValidation false "Not your turn"), (r, h))) /\
  (forall words, validWords r = WordSet words ->
   currentTurn r = Some username ->
     answer.2 = (r, h) /\
     (trim (toLowerCase word) ∉ words ->
        answer.1 = Return (mkValidation false "Not a valid word")) /\
     (trim (toLowerCase word) ∈ words ->
        (no_lastWord r = true ->
           answer.1 = Return (mkValidation true "First word")) /\
        (no_lastWord r = false ->
           (toLowerCase (charAt0 word) ≠ lastChar ->
              answer.1 =
              Return (mkValidation false ("Word must start with '" ++ lastChar ++ "'"))) /\
           (toLowerCase (charAt0 word) = lastChar ->
              (toLowerCase word ∈ usedWordSet r ->
                 answer.1 = Return (mkValidation false "Word has been used before")) /\
              (toLowerCase word ∉ usedWordSet r ->
                 answer.1 = Return (mkValidation true "Valid word")))))).
Proof.
  intros answer lastChar. subst answer lastChar.
  split; [ apply validateWordPlay_not_turn | ].
  intros words Hdict Hturn.
  rewrite (validateWordPlay_loaded _ _ _ _ _ Hdict). cbn [fst snd].
  unfold isPlayerTurn. rewrite (bool_decide_eq_true_2 _ Hturn). cbn [negb].
  split; [ reflexivity | split ].
  - intros Hout. by rewrite bool_decide_eq_false_2.
  - intros Hin. rewrite (bool_decide_eq_true_2 _ Hin). cbn [negb].
    split; [ by intros -> | intros -> ].
    split.
    + intros Hne. apply String.eqb_neq in Hne. by rewrite Hne.
    + intros Heq. apply String.eqb_eq in Heq. rewrite Heq. cbn [negb].
      split; intros Hused.
      * by rewrite bool_decide_eq_true_2.
      * by rewrite bool_decide_eq_false_2.
Qed.

Lemma validateWordPlay_first_rejection_witness :
  (validateWordPlay "B" "Apple" (played3.1, played3.2)).1 =
  Return (mkValidation false "Word must start with 'e'").
Proof.
  assert (Hdict : validWords played3.1 = WordSet dictionary) by (vm_compute; reflexivity).
  destruct (validateWordPlay_first_rejection "B" "Apple" played3.1 played3.2)
    as [_ Hturn].
  destruct (Hturn dictionary Hdict ltac:(vm_compute; reflexivity)) as (_ & _ & Hin).
  destruct (Hin ltac:(vm_compute; reflexivity)) as [_ Hlast].
  destruct (Hlast ltac:(vm_compute; reflexivity)) as [Hchain _].
  rewrite (Hchain ltac:(vm_compute; discriminate)).
  vm_compute. reflexivity.
Defined.

(** ** A rejected play *)

Lemma sendToPlayer_socket (username : option string) ev msg r h c s :
  getUserSocket username r = Some (String c s) ->
  sendToPlayer username ev msg (r, h) =
  (Return true, (r, host_emit (mkEmit (String c s) ev msg) h)).
Proof.
  intros Hs. unfold sendToPlayer, mbind, M_bind, this. cbn [fst snd].
  rewrite Hs. reflexivity.
Qed.

Lemma sendToPlayer_no_socket (username : option string) ev msg r h :
  getUserSocket username r = None \/ getUserSocket username r = Some "" ->
  sendToPlayer username ev msg (r, h) =
  (Return false,
   (r, host_emit
         (mkEmit (roomId r) "errorOccurred"
            (ErrorOccurred "An unexpected error occurred in the game"
               ("Error: No socket was found in the player map for player "
                ++ template_name username))) h)).
Proof.
  intros Hs. unfold sendToPlayer, mbind, M_bind, this. cbn [fst snd].
  destruct Hs as [-> | ->]; reflexivity.
Qed.

(** [validateWordPlay] always returns, and writes nothing to the room or
    to the timers. *)
Lemma validateWordPlay_frame (username word : string) (r : GameRoom) (h : Host) :
  wp (validateWordPlay username word)
     (fun o w' =>
        w'.1 = r /\ pending w'.2 = pending h /\ nextTimer w'.2 = nextTimer h /\
        exists v, o = Return v)
     (r, h).
Proof. unfold validateWordPlay. wp_run; eauto. Qed.

(** C6 (amended). When [validateWordPlay] fails, [playWord] returns [false]
    and leaves the whole room and the armed timers as they were.  When the
    submitting identity is a player with a socket id, the one thing emitted
    after validation is [wordPlayFailed] with the reason, to that socket,
    and with the dictionary loaded validation itself emitted nothing.  When
    the identity has no socket in the players map, no [wordPlayFailed] is
    emitted: the room gets an [errorOccurred] broadcast instead. *)
Theorem playWord_rejected (username word : string) (w w1 : World) (v : Validation) :
  validateWordPlay username word w = (Return v, w1) ->
  valid v = false ->
  let result := playWord username word w in
  result.1 = Return false /\
  result.2.1 = w.1 /\
  pending result.2.2 = pending w.2 /\
  match getUserSocket (Some username) w.1 with
  | Some (String c s) =>
      outbox result.2.2 =
      outbox w1.2 ++ [mkEmit (String c s) "wordPlayFailed" (WordPlayFailed (reason v))] /\
      (forall words, validWords w.1 = WordSet words -> w1 = w)
  | _ =>
      outbox result.2.2 =
      outbox w1.2 ++
      [mkEmit (roomId w.1) "errorOccurred"
         (ErrorOccurred "An unexpected error occurred in the game"
            ("Error: No socket was found in the player map for player " ++ username))]
  end.
Proof.
  intros E Hv result. destruct w as [r h], w1 as [r1 h1].
  destruct (wp_elim _ _ _ _ _ (validateWordPlay_frame username word r h) E)
    as (Hr & Hp & _). cbn [fst snd] in Hr, Hp. subst r1.
  assert (Hrun : result =
                 (sendToPlayer (Some username) "wordPlayFailed"
                    (WordPlayFailed (reason v));; mret false) (r, h1)).
  { subst result. unfold playWord. unfold mbind at 1, M_bind at 1.
    rewrite E, Hv. reflexivity. }
  cbn [fst snd].
  destruct (getUserSocket (Some username) r) as [[|c s]|] eqn:Hs.
  - rewrite Hrun. unfold mbind, M_bind.
    rewrite sendToPlayer_no_socket by auto. done.
  - rewrite Hrun. unfold mbind, M_bind.
    rewrite (sendToPlayer_socket _ _ _ _ _ c s Hs). repeat split; try done.
    intros words Hw. rewrite (validateWordPlay_loaded _ _ _ _ _ Hw) in E.
    by injection E as _ ->.
  - rewrite Hrun. unfold mbind, M_bind.
    rewrite sendToPlayer_no_socket by auto. done.
Qed.

Lemma playWord_rejected_witness :
  (playWord "B" "Apple" played3).2.1 = played3.1 /\
  outbox (playWord "B" "Apple" played3).2.2 =
  outbox played3.2 ++
  [mkEmit "sB" "wordPlayFailed" (WordPlayFailed "Word must start with 'e'")].
Proof.
  assert (E : validateWordPlay "B" "Apple" played3 =
              (Return (mkValidation false "Word must start with 'e'"), played3))
    by (vm_compute; reflexivity).
  destruct (playWord_rejected "B" "Apple" played3 played3 _ E eq_refl)
    as (_ & Hroom & _ & Hout).
  split; [ exact Hroom | ].
  change (getUserSocket (Some "B") played3.1) with (Some "sB") in Hout.
  exact (proj1 Hout).
Defined.

(** C6, as stated, fails for an identity that is not in the players map:
    Z submits a word to the room of A, B and C; validation answers "Not
    your turn", and what is emitted is an [errorOccurred] broadcast to the
    room, not a [wordPlayFailed] to anyone. *)
Lemma playWord_rejected_stranger_broadcast :
  let result := playWord "Z" "egg" played3 in
  (validateWordPlay "Z" "egg" played3).1 = Return (mkValidation false "Not your turn") /\
  result.1 = Return false /\
  outbox result.2.2 =
  outbox played3.2 ++
  [mkEmit "room_1" "errorOccurred"
     (ErrorOccurred "An unexpected error occurred in the game"
        "Error: No socket was found in the player map for player Z")] /\
  ~ (exists socket, outbox result.2.2 =
       outbox played3.2 ++
       [mkEmit socket "wordPlayFailed" (WordPlayFailed "Not your turn")]).
Proof.
  cbv zeta.
  split; [ vm_compute; reflexivity | ].
  split; [ vm_compute; reflexivity | ].
  split; [ vm_compute; reflexivity | ].
  intros [socket Hout].
  assert (Hlast : last (outbox (playWord "Z" "egg" played3).2.2) =
                  Some (mkEmit socket "wordPlayFailed" (WordPlayFailed "Not your turn")))
    by (rewrite Hout; apply last_snoc).
  vm_compute in Hlast. discriminate.
Qed.

(** ** A player leaves *)

Lemma map_has_cons k k' v (m : PlayersMap) :
  map_has k ((k', v) :: m) = if String.eqb k' k then true else map_has k m.
Proof. unfold map_has; simpl. by destruct (String.eqb k' k). Qed.

Lemma map_delete_length k (m : PlayersMap) :
  (length (map_delete k m) <= length m)%nat.
Proof.
  induction m as [ | [k' v] m IH ]; simpl; [ lia | ].
  destruct (String.eqb k' k); simpl; lia.
Qed.

Lemma map_delete_shorter k (m : PlayersMap) :
  map_has k m = true -> (length (map_delete k m) < length m)%nat.
Proof.
  induction m as [ | [k' v] m IH ]; [ discriminate | ].
  rewrite map_has_cons. simpl. destruct (String.eqb k' k).
  - intros _. pose proof (map_delete_length k m). lia.
  - intros H. specialize (IH H). simpl. lia.
Qed.

Lemma map_has_delete k (m : PlayersMap) : map_has k (map_delete k m) = false.
Proof.
  induction m as [ | [k' v] m IH ]; [ reflexivity | ].
  simpl. destruct (String.eqb k' k) eqn:E; [ exact IH | ].
  rewrite map_has_cons, E. exact IH.
Qed.

Lemma indexOf_lt u (l : list string) i : indexOf u l = Some i -> (i < length l)%nat.
Proof.
  revert i. induction l as [ | x l IH ]; intros i; simpl; [ discriminate | ].
  destruct (String.eqb x u).
  - intros [= <-]. lia.
  - destruct (indexOf u l) as [j|]; simpl; [ | discriminate ].
    intros [= <-]. specialize (IH j eq_refl). lia.
Qed.

Lemma length_splice i (l : list string) :
  (i < length l)%nat -> length (delete i l) = (length l - 1)%nat.
Proof. intros H. apply length_delete. by apply lookup_lt_is_Some. Qed.

Lemma spliced_length username l :
  (2 <= length l)%nat -> (0 <? length (spliced username l))%nat = true.
Proof.
  intros H. apply Nat.ltb_lt. unfold spliced.
  destruct (indexOf username l) as [i|] eqn:E; [ | lia ].
  rewrite length_splice by eauto using indexOf_lt. lia.
Qed.

Lemma removePlayer_wp (username : string) (r : GameRoom) (h : Host) :
  map_has username (playersMap r) = true ->
  (0 <? length (spliced username (turnOrder r)))%nat = true ->
  wp (removePlayer username)
     (fun o w' =>
        o = Return true /\ w'.1 = room_without username r /\
        pending w'.2 = pending h /\ nextTimer w'.2 = nextTimer h)
     (r, h).
Proof.
  intros Hhas Hlen. unfold removePlayer, room_without, spliced in *.
  destruct r. fields.
  wp_run; try congruence; repeat split; try reflexivity.
  all: repeat match goal with
         | H : bool_decide _ = _ |- _ => rewrite H
         end; try reflexivity.
Qed.

(** C2 (amended). In a game in progress with exactly two players and at
    least two names in the turn order, [removePlayer] on a player returns
    [true] and leaves fewer than two players, none of them the one removed,
    but it does not end the game: [isGameStarted] stays true, [isGameEnded]
    stays false, [isRoomActive] is as before, and the round timer, the
    game-end timer and every armed timer of the host stay as they were.  The
    turn order loses the player and keeps at least one name. *)
Theorem removePlayer_two_players_game_goes_on (username : string) (r : GameRoom) (h : Host) :
  isGameStarted r = true ->
  isGameEnded r = false ->
  length (playersMap r) = 2%nat ->
  map_has username (playersMap r) = true ->
  (2 <= length (turnOrder r))%nat ->
  let result := removePlayer username (r, h) in
  let r' := result.2.1 in
  result.1 = Return true /\
  (length (playersMap r') < 2)%nat /\
  map_has username (playersMap r') = false /\
  isGameStarted r' = true /\ isGameEnded r' = false /\
  isRoomActive r' = isRoomActive r /\
  roundTimer r' = roundTimer r /\ gameEndTimer r' = gameEndTimer r /\
  roomExpiryTimer r' = roomExpiryTimer r /\
  pending result.2.2 = pending h /\
  turnOrder r' = spliced username (turnOrder r) /\
  (0 < length (turnOrder r'))%nat.
Proof.
  intros Hstarted Hended Htwo Hhas Horder result r'.
  pose proof (spliced_length username _ Horder) as Hlen.
  pose proof (removePlayer_wp username r h Hhas Hlen) as Hwp.
  unfold wp in Hwp. fold result in Hwp. destruct Hwp as (Hret & Hroom & Hpending & _).
  subst r'. rewrite Hroom. unfold room_without.
  apply Nat.ltb_lt in Hlen.
  pose proof (map_delete_shorter username _ Hhas).
  pose proof (map_has_delete username (playersMap r)).
  destruct (bool_decide (currentTurn r = Some username)); fields;
    repeat split; try done; lia.
Qed.

Lemma removePlayer_two_players_game_goes_on_witness :
  isGameEnded (removePlayer "B" (started2.1, started2.2)).2.1 = false /\
  roundTimer (removePlayer "B" (started2.1, started2.2)).2.1 = roundTimer started2.1.
Proof.
  destruct (removePlayer_two_players_game_goes_on "B" started2.1 started2.2)
    as (_ & _ & _ & _ & Hended & _ & Hround & _);
    try (vm_compute; reflexivity).
  split; [ exact Hended | exact Hround ].
Defined.

(** C2, as stated, fails: A and B play, A holds the turn.  Whichever of the
    two leaves, one player remains, the game is still started and not
    ended, and the round timer armed at game start is still pending. *)
Lemma removePlayer_two_players_not_finished :
  isGameStarted started2.1 = true /\ isGameEnded started2.1 = false /\
  map_keys (playersMap started2.1) = ["A"; "B"] /\
  forall username, username = "A" \/ username = "B" ->
    let w' := (removePlayer username started2).2 in
    length (playersMap w'.1) = 1%nat /\
    isGameStarted w'.1 = true /\ isGameEnded w'.1 = false /\
    roundTimer w'.1 = Some 2%nat /\
    mkTimer 2 CbHandleRoundTimeout 30000 ∈ pending w'.2.
Proof.
  split; [ vm_compute; reflexivity | ].
  split; [ vm_compute; reflexivity | ].
  split; [ vm_compute; reflexivity | ].
  intros username [-> | ->]; cbv zeta.
  all: split; [ vm_compute; reflexivity | ].
  all: split; [ vm_compute; reflexivity | ].
  all: split; [ vm_compute; reflexivity | ].
  all: split; [ vm_compute; reflexivity | ].
  all: vm_compute; set_solver.
Qed.

(** Where the coupling is kept: [nextTurn] on a turn order that is not
    empty leaves [currentTurn] equal to [turnOrder[currentTurnIndex]], a
    name of the turn order. *)
Lemma nextTurn_coupled (r : GameRoom) (h : Host) (i : nat) :
  turnOrder r ≠ [] ->
  currentTurnIndex r = Some i ->
  let r' := (nextTurn (r, h)).2.1 in
  turnOrder r' = turnOrder r /\
  currentTurnIndex r' = Some ((i + 1) mod length (turnOrder r))%nat /\
  currentTurn r' = at_index (turnOrder r') (currentTurnIndex r') /\
  exists username, currentTurn r' = Some username /\ username ∈ turnOrder r'.
Proof.
  intros Hne Hi. cbv zeta.
  assert (Hrun : (nextTurn (r, h)).2.1 =
                 set_currentTurn
                   (at_index (turnOrder r) (succ_mod (currentTurnIndex r) (length (turnOrder r))))
                   (set_currentTurnIndex
                      (succ_mod (currentTurnIndex r) (length (turnOrder r))) r))
    by reflexivity.
  rewrite Hrun, Hi. fields. unfold succ_mod.
  destruct (length (turnOrder r)) as [ | n ] eqn:Hlen.
  - by apply nil_length_inv in Hlen.
  - assert (Hlt : ((i + 1) mod S n < length (turnOrder r))%nat)
      by (rewrite Hlen; apply Nat.mod_upper_bound; lia).
    repeat split; try reflexivity.
    destruct (lookup_lt_is_Some_2 _ _ Hlt) as [username Hu].
    exists username. cbn. split; [ exact Hu | ].
    by eapply list_elem_of_lookup_2.
Qed.

(** C3. The coupling of [currentTurn] and [currentTurnIndex] is lost when
    a player placed before the current one leaves.  A, B and C play in
    that order; after "Apple" from A and "egg" from B it is C's turn at
    index 2, and the coupling holds.  Then A leaves: the turn order is
    [B; C], but the index is still 2, beyond its end, so
    [turnOrder[currentTurnIndex]] is [undefined] and not C; the next
    [nextTurn] gives the turn to C again and B is passed over. *)
Theorem removePlayer_earlier_player_stale_index :
  let w := step in_order (PlayWord "B" "egg") played3 in
  let w' := step in_order (RemovePlayer "A") w in
  (isGameStarted w.1 = true /\ isGameEnded w.1 = false /\
   turnOrder w.1 = ["A"; "B"; "C"] /\ currentTurnIndex w.1 = Some 2%nat /\
   currentTurn w.1 = Some "C" /\
   at_index (turnOrder w.1) (currentTurnIndex w.1) = currentTurn w.1) /\
  (isGameStarted w'.1 = true /\ isGameEnded w'.1 = false /\
   turnOrder w'.1 = ["B"; "C"] /\ currentTurnIndex w'.1 = Some 2%nat /\
   currentTurn w'.1 = Some "C" /\
   at_index (turnOrder w'.1) (currentTurnIndex w'.1) = None) /\
  currentTurn (step in_order NextTurn w').1 = Some "C".
Proof. vm_compute. repeat split. Qed.

(** ** The players map of a reachable room *)

Lemma preserves_wp {A : Type} (I : GameRoom -> Prop) (m : M A) :
  (forall r h, I r -> wp m (fun _ w' => I w'.1) (r, h)) -> preserves I m.
Proof. intros H [r h] Hr. by apply H. Qed.

Lemma map_get_None_keys k (m : PlayersMap) : map_get k m = None -> k ∉ map_keys m.
Proof.
  induction m as [ | [k' v] m IH ]; [ intros _; apply not_elem_of_nil | ].
  simpl. destruct (String.eqb_spec k' k) as [-> | Hne]; [ discriminate | ].
  intros Hget. apply not_elem_of_cons. split; [ done | by apply IH ].
Qed.

Lemma map_has_false_keys k (m : PlayersMap) : map_has k m = false -> k ∉ map_keys m.
Proof.
  unfold map_has. destruct (map_get k m) eqn:E; [ discriminate | ].
  intros _. by apply map_get_None_keys.
Qed.

Lemma map_set_keys k v (m : PlayersMap) :
  map_keys (map_set k v m) = if map_has k m then map_keys m else map_keys m ++ [k].
Proof.
  induction m as [ | [k' v'] m IH ]; [ reflexivity | ].
  rewrite map_has_cons. cbn [map_set].
  destruct (String.eqb_spec k' k) as [-> | Hne]; [ reflexivity | ].
  unfold map_keys in *. rewrite fmap_cons, IH. by destruct (map_has k m).
Qed.

Lemma map_set_Forall (P : string * PlayerData -> Prop) k v (m : PlayersMap) :
  Forall P m -> P (k, v) -> Forall P (map_set k v m).
Proof.
  intros Hm Hv. induction Hm as [ | [k' v'] m Hx Hm IH ]; simpl.
  - by constructor.
  - destruct (String.eqb k' k); by constructor.
Qed.

Lemma map_delete_sublist k (m : PlayersMap) : map_delete k m `sublist_of` m.
Proof.
  induction m as [ | [k' v'] m IH ]; simpl; [ done | ].
  destruct (String.eqb k' k); [ by apply sublist_cons | by apply sublist_skip ].
Qed.

Lemma map_get_elem k (m : PlayersMap) v : map_get k m = Some v -> exists k', (k', v) ∈ m.
Proof.
  induction m as [ | [k' v'] m IH ]; simpl; [ discriminate | ].
  destruct (String.eqb k' k).
  - intros [= ->]. exists k'. apply list_elem_of_here.
  - intros (k'' & Hin)%IH. exists k''. by apply list_elem_of_further.
Qed.

Lemma map_set_players_ok k v (r : GameRoom) :
  players_ok r -> 0 <= points v ->
  players_ok (set_playersMap (map_set k v (playersMap r)) r).
Proof.
  intros [Hkeys Hpoints] Hv. split; fields.
  - rewrite map_set_keys. destruct (map_has k (playersMap r)) eqn:E; [ done | ].
    apply NoDup_app. split; [ done | ]. split; [ | apply NoDup_singleton ].
    intros x Hx ->%list_elem_of_singleton. by apply (map_has_false_keys _ _ E).
  - by apply map_set_Forall.
Qed.

Lemma map_delete_players_ok k (r r' : GameRoom) :
  players_ok r -> playersMap r' = map_delete k (playersMap r) -> players_ok r'.
Proof.
  intros [Hkeys Hpoints] E. unfold players_ok. rewrite E. split.
  - eapply sublist_NoDup; [ exact Hkeys | ].
    apply fmap_sublist, map_delete_sublist.
  - rewrite Forall_forall in *. intros entry Hin. apply Hpoints.
    eapply elem_of_sublist; [ exact Hin | apply map_delete_sublist ].
Qed.

(** The side condition of a field assignment that leaves the players alone. *)
Ltac same_players := let r := fresh in let H := fresh in intros r H; exact H.

Lemma addPlayer_players_ok u s : preserves players_ok (addPlayer u s).
Proof.
  apply preserves_wp. intros r h Hok. unfold addPlayer. wp_run; try done.
  by apply map_set_players_ok.
Qed.

Lemma addPoints_players_ok u pts : 0 <= pts -> preserves players_ok (addPoints u pts).
Proof.
  intros Hpts. apply preserves_wp. intros r h Hok. unfold addPoints.
  wp_run; try done.
  apply map_set_players_ok; [ done | ]. cbn [points].
  match goal with
  | H : _ ≫= _ = Some _ |- _ =>
      destruct u as [name|]; [ | discriminate ]; cbn in H;
      destruct (map_get name (playersMap r)) as [found|] eqn:Hget; [ | discriminate ];
      cbn in H; injection H as <- <-
  end.
  destruct (map_get_elem _ _ _ Hget) as [k' Hin].
  destruct Hok as [_ Hpoints]. rewrite Forall_forall in Hpoints.
  specialize (Hpoints _ Hin). cbn [snd] in Hpoints. lia.
Qed.

Lemma addPoints_players_ok_length u word :
  preserves players_ok (addPoints u (Z.of_nat (String.length word))).
Proof. apply addPoints_players_ok. lia. Qed.

Lemma addPoints_players_ok_zero u : preserves players_ok (addPoints u 0).
Proof. by apply addPoints_players_ok. Qed.

Lemma removePlayer_players_ok u : preserves players_ok (removePlayer u).
Proof.
  apply preserves_wp. intros r h Hok. unfold removePlayer.
  wp_run; try done; by eapply map_delete_players_ok.
Qed.

#[export] Hint Resolve addPlayer_players_ok addPoints_players_ok_length
  addPoints_players_ok_zero removePlayer_players_ok : room_inv.

(** Every call keeps the players map in order, [addPoints] when its amount
    is not negative. *)
Lemma call_players_ok shuffle c :
  nonneg_amount c -> preserves players_ok (call shuffle c).
Proof.
  intros Hc. destruct c; cbn [call nonneg_amount] in *;
    try solve [ preserve same_players ].
  - apply preserves_bind; [ by apply addPoints_players_ok | ].
    intros a. apply preserves_ret.
  - apply fire_preserves; [ intros why | | ]; preserve same_players.
Qed.

Lemma new_GameRoom_players_ok now file creator room socket host :
  players_ok (new_GameRoom now file creator room socket host).1.
Proof.
  unfold new_GameRoom.
  match goal with
  | |- context [ ?m (?r0, host) ] =>
      assert (Hm : preserves players_ok m) by preserve same_players;
      specialize (Hm (r0, host)); destruct (m (r0, host)) as [o [r h]]
  end.
  apply Hm. split; cbn.
  - apply NoDup_singleton.
  - by repeat constructor.
Qed.

Lemma run_snoc shuffle calls c w :
  run shuffle (calls ++ [c]) w = step shuffle c (run shuffle calls w).
Proof. unfold run. by rewrite foldl_app. Qed.

(** After any calls on a new room, none of them [addPoints] with a negative
    amount, the players map has each name once and no negative score: what
    the statements about the turn order, the winners and the router assume
    of a room. *)
Lemma run_players_ok shuffle calls now file creator room socket host :
  Forall nonneg_amount calls ->
  players_ok (run shuffle calls (new_GameRoom now file creator room socket host)).1.
Proof.
  induction calls as [ | c calls IH ] using rev_ind; intros Hcalls.
  - apply new_GameRoom_players_ok.
  - apply Forall_app in Hcalls as [Hcalls Hc]. apply Forall_cons in Hc as [Hc _].
    rewrite run_snoc. apply (call_players_ok shuffle c Hc). by apply IH.
Qed.

Lemma map_set_unique k v (m : PlayersMap) :
  NoDup (map_keys m) -> NoDup (map_keys (map_set k v m)).
Proof.
  intros Hkeys. rewrite map_set_keys. destruct (map_has k m) eqn:E; [ done | ].
  apply NoDup_app. split; [ done | ]. split; [ | apply NoDup_singleton ].
  intros x Hx ->%list_elem_of_singleton. by apply (map_has_false_keys _ _ E).
Qed.

Lemma addPlayer_unique_names u s : preserves unique_names (addPlayer u s).
Proof.
  apply preserves_wp. intros r h Hok. unfold addPlayer. wp_run; try done.
  by apply map_set_unique.
Qed.

(** Whatever the amount, [addPoints] leaves the names as they are. *)
Lemma addPoints_unique_names u pts : preserves unique_names (addPoints u pts).
Proof.
  apply preserves_wp. intros r h Hok. unfold addPoints. wp_run; try done.
  by apply map_set_unique.
Qed.

Lemma removePlayer_unique_names u : preserves unique_names (removePlayer u).
Proof.
  apply preserves_wp. intros r h Hok. unfold removePlayer.
  wp_run; try done; unfold unique_names in *;
    match goal with
    | H : playersMap _ = map_delete _ _ |- _ => rewrite H
    | _ => idtac
    end;
    (eapply sublist_NoDup; [ exact Hok | ]; apply fmap_sublist, map_delete_sublist).
Qed.

#[export] Hint Resolve addPlayer_unique_names addPoints_unique_names
  removePlayer_unique_names : room_inv.

Lemma call_unique_names shuffle c : preserves unique_names (call shuffle c).
Proof.
  destruct c; cbn [call]; try solve [ preserve same_players ].
  apply fire_preserves; [ intros why | | ]; preserve same_players.
Qed.

Lemma new_GameRoom_unique_names now file creator room socket host :
  unique_names (new_GameRoom now file creator room socket host).1.
Proof. apply new_GameRoom_players_ok. Qed.

Lemma run_unique_names shuffle calls now file creator room socket host :
  unique_names (run shuffle calls (new_GameRoom now file creator room socket host)).1.
Proof.
  induction calls as [ | c calls IH ] using rev_ind.
  - apply new_GameRoom_unique_names.
  - rewrite run_snoc. by apply call_unique_names.
Qed.

(** In every reachable world the players map has each name once. *)
Lemma reachable_unique_names shuffle w : reachable shuffle w -> unique_names w.1.
Proof.
  apply reachable_invariant;
    auto using new_GameRoom_unique_names, call_unique_names.
Qed.

(** ** The turn order at game start *)

Lemma filter_absent (c : string) (l : list string) :
  c ∉ l -> filter (fun x => x ≠ c) l = l.
Proof.
  induction l as [ | x l IH ]; [ done | ].
  intros Hc. rewrite filter_cons. apply not_elem_of_cons in Hc as [Hx Hl].
  rewrite decide_True by done. by rewrite IH.
Qed.

Lemma creator_first_perm (c : string) (l : list string) :
  NoDup l -> c ∈ l -> c :: filter (fun x => x ≠ c) l ≡ₚ l.
Proof.
  induction 1 as [ | x l Hx Hl IH ]; [ by intros ?%elem_of_nil | ].
  intros Hc. rewrite filter_cons. destruct (decide (x = c)) as [-> | Hne].
  - rewrite decide_False by (intros Hcc; by apply Hcc).
    by rewrite filter_absent.
  - rewrite decide_True by done.
    apply elem_of_cons in Hc as [-> | Hc]; [ done | ].
    rewrite Permutation_swap. by rewrite IH.
Qed.

(** C4 (amended). After a successful [startGame] the players are as
    before, the turn order has the creator at index 0, and the rest of it
    is a permutation of exactly the other current players.  So when the
    creator is among the players the turn order is a permutation of exactly
    the player set; when the creator is no longer among them it is the
    creator followed by a permutation of the player set. *)
Theorem startGame_turnOrder (shuffle : list string -> list string) (w w' : World) :
  (forall l, shuffle l ≡ₚ l) ->
  NoDup (map_keys (playersMap w.1)) ->
  startGame shuffle w = (Return true, w') ->
  let creator := creatorUsername w.1 in
  let keys := map_keys (playersMap w.1) in
  playersMap w'.1 = playersMap w.1 /\
  turnOrder w'.1 !! 0%nat = Some creator /\
  drop 1 (turnOrder w'.1) ≡ₚ filter (fun username => username ≠ creator) keys /\
  (creator ∈ keys -> turnOrder w'.1 ≡ₚ keys) /\
  (creator ∉ keys -> turnOrder w'.1 ≡ₚ creator :: keys).
Proof.
  intros Hperm Hkeys E creator keys. destruct w as [r h].
  destruct (wp_elim _ _ _ _ _ (startGame_wp shuffle r h) E eq_refl) as (_ & _ & ->).
  unfold started_room; fields. subst creator keys. cbn [fst].
  split; [ reflexivity | ]. split; [ reflexivity | ].
  split; [ apply Hperm | ]. split.
  - intros Hin. rewrite Hperm. by apply creator_first_perm.
  - intros Hout. rewrite Hperm. by rewrite filter_absent.
Qed.

Lemma startGame_turnOrder_witness :
  turnOrder (startGame reverse lobby3).2.1 ≡ₚ ["A"; "B"; "C"].
Proof.
  assert (E : startGame reverse lobby3 = (Return true, (startGame reverse lobby3).2))
    by (vm_compute; reflexivity).
  refine (proj1 (proj2 (proj2 (proj2
            (startGame_turnOrder reverse lobby3 _ _ _ E)))) _).
  - intros l. apply reverse_Permutation.
  - apply (bool_decide_unpack _). vm_compute. exact I.
  - vm_compute. constructor.
Defined.

(** C4, as stated, fails when the creator is no longer among the players:
    B and C are the players, [startGame] succeeds, and the turn order is
    [A; B; C]: A is absent from the players and yet in the turn order, which
    is no permutation of the player set. *)
Lemma startGame_absent_creator_in_turnOrder :
  let w := lobby_without_creator in
  let w' := (startGame in_order w).2 in
  (startGame in_order w).1 = Return true /\
  creatorUsername w.1 = "A" /\
  map_keys (playersMap w.1) = ["B"; "C"] /\
  map_keys (playersMap w'.1) = ["B"; "C"] /\
  turnOrder w'.1 = ["A"; "B"; "C"] /\
  ~ (turnOrder w'.1 ≡ₚ map_keys (playersMap w'.1)).
Proof.
  cbv zeta.
  split; [ vm_compute; reflexivity | ].
  split; [ vm_compute; reflexivity | ].
  split; [ vm_compute; reflexivity | ].
  split; [ vm_compute; reflexivity | ].
  split; [ vm_compute; reflexivity | ].
  intros Hperm. apply Permutation_length in Hperm.
  vm_compute in Hperm. discriminate.
Qed.

(** ** The winners *)

Lemma max_points_snoc (m : PlayersMap) (entry : string * PlayerData) :
  max_points (m ++ [entry]) = Z.max (max_points m) (points entry.2).
Proof.
  unfold max_points. induction m as [ | e m IH ]; simpl; [ lia | ].
  rewrite IH. lia.
Qed.

Lemma max_points_ge (m : PlayersMap) (entry : string * PlayerData) :
  entry ∈ m -> points entry.2 <= max_points m.
Proof.
  unfold max_points. induction m as [ | e m IH ]; [ by intros ?%elem_of_nil | ].
  intros [-> | Hin]%elem_of_cons; simpl; [ lia | ].
  specialize (IH Hin). lia.
Qed.

Lemma max_points_attained (m : PlayersMap) :
  max_points m = -1 \/ exists entry, entry ∈ m /\ points entry.2 = max_points m.
Proof.
  unfold max_points. induction m as [ | e m IH ]; [ by left | ].
  simpl. destruct (Z.max_spec (points e.2) (foldr (fun entry acc => Z.max (points entry.2) acc) (-1) m))
    as [[Hlt ->] | [Hge ->]].
  - destruct IH as [IH | (entry & Hin & Hp)]; [ by left | ].
    right. exists entry. split; [ by apply list_elem_of_further | done ].
  - right. exists e. split; [ apply list_elem_of_here | done ].
Qed.

Lemma tied_at_above (mx : Z) (m : PlayersMap) :
  max_points m < mx -> tied_at mx m = [].
Proof.
  intros Hlt. unfold tied_at.
  rewrite (elem_of_nil_inv (filter _ m)); [ done | ].
  intros entry [Heq Hin]%list_elem_of_filter.
  pose proof (max_points_ge m entry Hin). lia.
Qed.

Lemma tied_at_snoc (mx : Z) (m : PlayersMap) (entry : string * PlayerData) :
  tied_at mx (m ++ [entry]) =
  tied_at mx m ++ (if decide (points entry.2 = mx) then [entry.1] else []).
Proof.
  unfold tied_at. rewrite filter_app, fmap_app. f_equal.
  rewrite filter_cons, filter_nil. by destruct (decide (points entry.2 = mx)).
Qed.

(** The loop of [determineWinner] carries the greatest score and the
    players tied at it. *)
Lemma winner_step_tied (m : PlayersMap) (entry : string * PlayerData) :
  winner_step (max_points m, tied_at (max_points m) m) entry =
  (max_points (m ++ [entry]), tied_at (max_points (m ++ [entry])) (m ++ [entry])).
Proof.
  destruct entry as [username data]. unfold winner_step.
  rewrite tied_at_snoc, max_points_snoc. cbn [fst snd].
  destruct (Z.ltb_spec (max_points m) (points data)) as [Hlt | Hge].
  - rewrite Z.max_r by lia. rewrite tied_at_above by done.
    by rewrite decide_True.
  - rewrite Z.max_l by lia.
    destruct (Z.eqb_spec (points data) (max_points m)) as [Heq | Hne].
    + by rewrite decide_True.
    + rewrite decide_False by done. by rewrite app_nil_r.
Qed.

Lemma winner_fold_tied (suffix m : PlayersMap) :
  foldl winner_step (max_points m, tied_at (max_points m) m) suffix =
  (max_points (m ++ suffix), tied_at (max_points (m ++ suffix)) (m ++ suffix)).
Proof.
  revert m. induction suffix as [ | entry suffix IH ]; intros m.
  - by rewrite app_nil_r.
  - cbn [foldl]. rewrite winner_step_tied, IH. by rewrite <- app_assoc.
Qed.

Lemma determineWinner_tied (r : GameRoom) :
  determineWinner r = tied_at (max_points (playersMap r)) (playersMap r).
Proof.
  unfold determineWinner.
  change (-1, @nil string) with (max_points [], tied_at (max_points []) []).
  by rewrite winner_fold_tied.
Qed.

Lemma elem_of_tied_at (username : string) (mx : Z) (m : PlayersMap) :
  username ∈ tied_at mx m <-> exists data, (username, data) ∈ m /\ points data = mx.
Proof.
  unfold tied_at. rewrite list_elem_of_fmap. split.
  - intros ([u data] & -> & [Hp Hin]%list_elem_of_filter). by exists data.
  - intros (data & Hin & Hp). exists (username, data).
    split; [ done | ]. by apply list_elem_of_filter.
Qed.

(** X1. The room's [determineWinner]: for a non-empty players map whose scores
    are not negative, it returns at least one player, and a player is in its
    result exactly when no player of the map has a greater score: every
    player tied at the maximum is returned, and nobody else. *)
Lemma determineWinner_all_tied (r : GameRoom) :
  playersMap r ≠ [] ->
  Forall (fun entry => 0 <= points entry.2) (playersMap r) ->
  determineWinner r ≠ [] /\
  forall username,
    username ∈ determineWinner r <->
    exists data, (username, data) ∈ playersMap r /\
                 forall entry, entry ∈ playersMap r -> points entry.2 <= points data.
Proof.
  intros Hne Hpos. rewrite determineWinner_tied.
  assert (Htop : exists top, top ∈ playersMap r /\ points top.2 = max_points (playersMap r)).
  { destruct (max_points_attained (playersMap r)) as [Hnone | Htop]; [ | done ].
    destruct (playersMap r) as [ | first rest ] eqn:E; [ done | ].
    apply Forall_cons in Hpos as [Hfirst _].
    pose proof (max_points_ge (first :: rest) first (list_elem_of_here _ _)). lia. }
  destruct Htop as ([top_name top] & Htop_in & Htop).
  split.
  - intros Hnil.
    assert (Hin : top_name ∈ tied_at (max_points (playersMap r)) (playersMap r))
      by (apply elem_of_tied_at; eauto).
    rewrite Hnil in Hin. by apply elem_of_nil in Hin.
  - intros username. rewrite elem_of_tied_at. split.
    + intros (data & Hin & Hp). exists data. split; [ done | ].
      intros entry Hentry. rewrite Hp. by apply max_points_ge.
    + intros (data & Hin & Hmax). exists data. split; [ done | ].
      pose proof (max_points_ge _ _ Hin) as Hle. cbn [snd] in Hle.
      specialize (Hmax _ Htop_in). cbn [snd] in Htop, Hmax. lia.
Qed.

Lemma determineWinner_tie_room :
  determineWinner tie_room = ["A"; "B"] /\
  ("B" ∈ determineWinner tie_room <->
   exists data, ("B", data) ∈ playersMap tie_room /\
                forall entry, entry ∈ playersMap tie_room -> points entry.2 <= points data).
Proof.
  split; [ vm_compute; reflexivity | ].
  refine (proj2 (determineWinner_all_tied tie_room _ _) "B").
  - vm_compute. discriminate.
  - vm_compute. repeat constructor; discriminate.
Defined.




(** The draft of the class kept in socketEvents.js has one winner: with A
    and B tied at five points and C at three, the room's method returns A
    and B, and the draft's returns A alone. *)
Theorem legacy_determineWinner_single :
  (fun entry => (entry.1, points entry.2)) <$> playersMap tie_room =
    [("A", 5); ("C", 3); ("B", 5)] /\
  determineWinner tie_room = ["A"; "B"] /\
  Legacy.determineWinner tie_room = Some "A".
Proof. vm_compute. repeat split. Qed.

(** ** The router's end of game *)

Lemma determineWinner_NoDup (r : GameRoom) :
  NoDup (map_keys (playersMap r)) -> NoDup (determineWinner r).
Proof.
  rewrite determineWinner_tied. unfold tied_at, map_keys.
  intros Hkeys. eapply sublist_NoDup; [ exact Hkeys | ].
  apply fmap_sublist, sublist_filter.
Qed.

Section RouterFacts.

Variable pool_error : Router.Query -> option JSError.

Lemma update_winner_frame (s : Router.State) (winner : string) :
  Router.rooms (Router.update_winner pool_error s winner) = Router.rooms s /\
  Router.net (Router.update_winner pool_error s winner) = Router.net s.
Proof.
  unfold Router.update_winner, Router.getUserStatsByUsername,
    Router.updateUserStatsByUserName.
  repeat case_match; simplify_eq; done.
Qed.

Lemma update_winners_frame (winners : list string) (s : Router.State) :
  Router.rooms (foldl (Router.update_winner pool_error) s winners) = Router.rooms s /\
  Router.net (foldl (Router.update_winner pool_error) s winners) = Router.net s.
Proof.
  revert s. induction winners as [ | winner winners IH ]; intros s; [ done | ].
  cbn [foldl]. destruct (IH (Router.update_winner pool_error s winner)) as [-> ->].
  apply update_winner_frame.
Qed.

(** The loop's turn for one winner leaves the rows of the others alone,
    whether it fails or not. *)
Lemma update_winner_other (s : Router.State) (winner username : string) :
  winner ≠ username ->
  Router.users (Router.update_winner pool_error s winner) !! username =
  Router.users s !! username.
Proof.
  intros Hne.
  unfold Router.update_winner, Router.getUserStatsByUsername,
    Router.updateUserStatsByUserName.
  repeat case_match; simplify_eq; cbn; try done.
  by rewrite lookup_alter_ne.
Qed.

Lemma update_winners_other (winners : list string) (s : Router.State) (username : string) :
  username ∉ winners ->
  Router.users (foldl (Router.update_winner pool_error) s winners) !! username =
  Router.users s !! username.
Proof.
  revert s. induction winners as [ | winner winners IH ]; intros s; [ done | ].
  intros [Hne Hout]%not_elem_of_cons. cbn [foldl].
  rewrite IH by done. by apply update_winner_other.
Qed.

Lemma update_winner_self (s : Router.State) (username : string) (row : Router.UserStats) :
  Router.users s !! username = Some row ->
  pool_error (Router.SelectStats username) = None ->
  pool_error (Router.UpdateStats username (Router.gamesPlayed row + 1)
                (Router.gamesWon row + 1)) = None ->
  Router.users (Router.update_winner pool_error s username) !! username =
  Some (Router.mkStats (Router.gamesPlayed row + 1) (Router.gamesWon row + 1)).
Proof.
  intros Hrow Hselect Hupdate.
  unfold Router.update_winner, Router.getUserStatsByUsername,
    Router.updateUserStatsByUserName.
  rewrite Hselect, Hrow, Hupdate. cbn.
  by rewrite lookup_alter_eq, Hrow.
Qed.

Lemma update_winners_self (winners : list string) (s : Router.State)
    (username : string) (row : Router.UserStats) :
  NoDup winners -> username ∈ winners ->
  Router.users s !! username = Some row ->
  pool_error (Router.SelectStats username) = None ->
  pool_error (Router.UpdateStats username (Router.gamesPlayed row + 1)
                (Router.gamesWon row + 1)) = None ->
  Router.users (foldl (Router.update_winner pool_error) s winners) !! username =
  Some (Router.mkStats (Router.gamesPlayed row + 1) (Router.gamesWon row + 1)).
Proof.
  intros Hnodup. revert s.
  induction Hnodup as [ | winner winners Hfresh _ IH ]; intros s;
    [ by intros ?%elem_of_nil | ].
  intros [-> | Hin]%elem_of_cons Hrow Hselect Hupdate; cbn [foldl].
  - rewrite update_winners_other by done. by apply update_winner_self.
  - apply IH; try done.
    rewrite update_winner_other; [ done | ]. by intros ->.
Qed.

End RouterFacts.

(** C9. Whatever errors the pool answers with, the end-game handler of an
    existing room emits exactly one thing, [gameEnded] with the winners and
    the scores, to the room, and drops the room from the registry; and a
    winner whose own two statements succeed has both counters incremented,
    whatever happened to the statements of the other winners. *)
Theorem endGame_best_effort (pool_error : Router.Query -> option JSError)
    (socket room : string) (s : Router.State) (r : GameRoom) :
  Router.rooms s !! room = Some r ->
  NoDup (map_keys (playersMap r)) ->
  let s' := Router.endGame pool_error socket room s in
  Router.net s' =
    Router.net s ++ [mkEmit room "gameEnded" (GameEnded (determineWinner r) (playersMap r))] /\
  Router.rooms s' !! room = None /\
  forall username row,
    username ∈ determineWinner r ->
    Router.users s !! username = Some row ->
    pool_error (Router.SelectStats username) = None ->
    pool_error (Router.UpdateStats username (Router.gamesPlayed row + 1)
                  (Router.gamesWon row + 1)) = None ->
    Router.users s' !! username =
    Some (Router.mkStats (Router.gamesPlayed row + 1) (Router.gamesWon row + 1)).
Proof.
  intros Hroom Hkeys s'. subst s'. unfold Router.endGame. rewrite Hroom.
  cbn [Router.net Router.rooms Router.users Router.emit].
  destruct (update_winners_frame pool_error (determineWinner r) s) as [_ ->].
  split; [ done | ]. split; [ apply lookup_delete_eq | ].
  intros username row Hin Hrow Hselect Hupdate.
  apply update_winners_self; auto using determineWinner_NoDup.
Qed.

Lemma endGame_best_effort_witness :
  let s' := Router.endGame pool_fails_for_A "sA" "room_1" router0 in
  Router.users s' !! "A" = Some (Router.mkStats 3 1) /\
  Router.users s' !! "B" = Some (Router.mkStats 8 3) /\
  Router.net s' =
    [mkEmit "room_1" "gameEnded" (GameEnded ["A"; "B"] (playersMap tie_room))].
Proof.
  cbv zeta. split; [ vm_compute; reflexivity | ].
  assert (Hroom : Router.rooms router0 !! "room_1" = Some tie_room)
    by (vm_compute; reflexivity).
  assert (Hkeys : NoDup (map_keys (playersMap tie_room)))
    by (apply (bool_decide_unpack _); vm_compute; exact I).
  destruct (endGame_best_effort pool_fails_for_A "sA" "room_1" router0 tie_room Hroom Hkeys)
    as (Hnet & _ & Hstats).
  split.
  - apply (Hstats "B" (Router.mkStats 7 2)); try (vm_compute; reflexivity).
    vm_compute. set_solver.
  - rewrite Hnet. vm_compute. reflexivity.
Defined.

(** * Further properties of the room *)

(** ** Joining and leaving *)

Lemma map_set_fresh k v (m : PlayersMap) :
  map_has k m = false -> map_set k v m = m ++ [(k, v)].
Proof.
  induction m as [ | [k' v'] m IH ]; [ reflexivity | ].
  rewrite map_has_cons. cbn [map_set app].
  destruct (String.eqb k' k); [ discriminate | ].
  intros H. by rewrite IH.
Qed.

Lemma map_get_set k v (m : PlayersMap) : map_get k (map_set k v m) = Some v.
Proof.
  induction m as [ | [k' v'] m IH ]; cbn [map_set map_get].
  - by rewrite String.eqb_refl.
  - destruct (String.eqb k' k) eqn:E; cbn [map_get].
    + by rewrite String.eqb_refl.
    + by rewrite E.
Qed.

Lemma map_get_set_other k k0 v (m : PlayersMap) :
  k ≠ k0 -> map_get k0 (map_set k v m) = map_get k0 m.
Proof.
  intros Hne. induction m as [ | [k' v'] m IH ]; cbn [map_set map_get].
  - by rewrite (proj2 (String.eqb_neq k k0) Hne).
  - destruct (String.eqb_spec k' k) as [-> | Hk]; cbn [map_get].
    + by rewrite (proj2 (String.eqb_neq k k0) Hne).
    + by rewrite IH.
Qed.

Lemma map_delete_absent k (m : PlayersMap) : map_has k m = false -> map_delete k m = m.
Proof.
  induction m as [ | [k' v'] m IH ]; [ reflexivity | ].
  rewrite map_has_cons. cbn [map_delete].
  destruct (String.eqb k' k); [ discriminate | ].
  intros H. by rewrite IH.
Qed.

Lemma map_delete_snoc k v (m : PlayersMap) :
  map_has k m = false -> map_delete k (m ++ [(k, v)]) = m.
Proof.
  induction m as [ | [k' v'] m IH ]; cbn [map_delete app].
  - by rewrite String.eqb_refl.
  - rewrite map_has_cons. destruct (String.eqb k' k); [ discriminate | ].
    intros H. by rewrite IH.
Qed.

Lemma indexOf_absent u (l : list string) : u ∉ l -> indexOf u l = None.
Proof.
  induction l as [ | x l IH ]; [ done | ].
  intros [Hx Hl]%not_elem_of_cons. cbn [indexOf].
  rewrite (proj2 (String.eqb_neq x u)) by done. by rewrite IH.
Qed.

Lemma set_playersMap_same (r : GameRoom) m :
  set_playersMap (playersMap r) (set_playersMap m r) = r.
Proof. by destruct r. Qed.

(** X2. [addPlayer] refuses a full room and a name that is already a
    player: it returns [false], leaves the room and the timers as they were,
    and broadcasts one [errorOccurred] that carries the reason, "Room is
    full" taking precedence over the duplicate. *)
Theorem addPlayer_refused (username socket : string) (r : GameRoom) (h : Host) :
  (maxPlayers r <= length (playersMap r))%nat \/ map_has username (playersMap r) = true ->
  addPlayer username socket (r, h) =
  (Return false,
   (r, host_emit
         (mkEmit (roomId r) "errorOccurred"
            (ErrorOccurred "An unexpected error occurred in the game"
               (error_toString (addPlayer_refusal username r)))) h)).
Proof.
  intros Hwhy. unfold addPlayer, addPlayer_refusal, mbind, M_bind, this.
  cbn [fst snd].
  destruct (maxPlayers r <=? length (playersMap r))%nat eqn:Hfull; [ reflexivity | ].
  destruct Hwhy as [Hle | Hdup].
  - apply Nat.leb_gt in Hfull. lia.
  - rewrite Hdup. reflexivity.
Qed.

Lemma addPlayer_refused_witness :
  (addPlayer "B" "other" lobby3).1 = Return false /\
  (addPlayer "B" "other" lobby3).2.1 = lobby3.1.
Proof.
  assert (Hdup : (maxPlayers lobby3.1 <= length (playersMap lobby3.1))%nat \/
                 map_has "B" (playersMap lobby3.1) = true)
    by (right; vm_compute; reflexivity).
  pose proof (addPlayer_refused "B" "other" lobby3.1 lobby3.2 Hdup) as E.
  change (lobby3.1, lobby3.2) with lobby3 in E. rewrite E. split; reflexivity.
Defined.

(** X3. In a room that is not full, [addPlayer] of a new name returns
    [true], emits nothing and arms nothing; the newcomer is appended to the
    players map with the given socket id and zero points, so the players who
    were there keep their order and their scores, and every other field of
    the room is as before. *)
Theorem addPlayer_joined (username socket : string) (r : GameRoom) (h : Host) :
  (length (playersMap r) < maxPlayers r)%nat ->
  map_has username (playersMap r) = false ->
  addPlayer username socket (r, h) =
  (Return true,
   (set_playersMap (playersMap r ++ [(username, mkPlayer socket 0)]) r, h)) /\
  map_get username (playersMap r ++ [(username, mkPlayer socket 0)]) =
  Some (mkPlayer socket 0) /\
  forall other, other ≠ username ->
    map_get other (playersMap r ++ [(username, mkPlayer socket 0)]) =
    map_get other (playersMap r).
Proof.
  intros Hroom Hnew. rewrite <- (map_set_fresh _ (mkPlayer socket 0) _ Hnew).
  split; [ | split ].
  - unfold addPlayer, try_catch, mbind, M_bind, this, assign. cbn [fst snd].
    rewrite (proj2 (Nat.leb_gt _ _) Hroom), Hnew. reflexivity.
  - apply map_get_set.
  - intros other Hne. by apply map_get_set_other.
Qed.

Lemma addPlayer_joined_witness :
  map_keys (playersMap (addPlayer "D" "sD" lobby3).2.1) = ["A"; "B"; "C"; "D"].
Proof.
  destruct (addPlayer_joined "D" "sD" lobby3.1 lobby3.2) as (E & _ & _).
  - vm_compute. lia.
  - vm_compute. reflexivity.
  - change (lobby3.1, lobby3.2) with lobby3 in E. rewrite E.
    vm_compute. reflexivity.
Defined.

(** X4. [removePlayer] of a name that is not a player returns [false] and
    changes nothing: no field of the room, no timer, and nothing is
    emitted. *)
Theorem removePlayer_absent (username : string) (r : GameRoom) (h : Host) :
  map_has username (playersMap r) = false ->
  removePlayer username (r, h) = (Return false, (r, h)).
Proof.
  intros Habsent. unfold removePlayer, try_catch, mbind, M_bind, this.
  cbn [fst snd]. rewrite Habsent. reflexivity.
Qed.

Lemma removePlayer_absent_witness :
  removePlayer "Z" (played3.1, played3.2) = (Return false, (played3.1, played3.2)).
Proof.
  apply removePlayer_absent. vm_compute. reflexivity.
Defined.

(** X5. Joining and leaving undo each other: when a new name joins a room
    that is not full and then leaves, while it neither holds the turn nor
    stands in the turn order, both calls return [true] and the room and the
    host are exactly as before the two calls. *)
Theorem addPlayer_removePlayer_round_trip (username socket : string)
    (r : GameRoom) (h : Host) :
  (length (playersMap r) < maxPlayers r)%nat ->
  map_has username (playersMap r) = false ->
  currentTurn r ≠ Some username ->
  username ∉ turnOrder r ->
  (addPlayer username socket (r, h)).1 = Return true /\
  removePlayer username (addPlayer username socket (r, h)).2 = (Return true, (r, h)).
Proof.
  intros Hroom Hnew Hturn Horder.
  destruct (addPlayer_joined username socket r h Hroom Hnew) as (-> & Hget & _).
  split; [ reflexivity | ]. cbn [snd].
  unfold removePlayer, try_catch, mbind, M_bind, this, assign. cbn [fst snd].
  fields. unfold map_has at 1. rewrite Hget.
  rewrite (indexOf_absent _ _ Horder). cbn [mret M_ret fst snd]. fields.
  rewrite (bool_decide_eq_false_2 _ Hturn). cbn [mret M_ret].
  rewrite (map_delete_snoc _ _ _ Hnew).
  by rewrite set_playersMap_same.
Qed.

Lemma addPlayer_removePlayer_round_trip_witness :
  removePlayer "D" (addPlayer "D" "sD" (played3.1, played3.2)).2 =
  (Return true, (played3.1, played3.2)).
Proof.
  refine (proj2 (addPlayer_removePlayer_round_trip "D" "sD" played3.1 played3.2 _ _ _ _)).
  - vm_compute. lia.
  - vm_compute. reflexivity.
  - vm_compute. discriminate.
  - apply (bool_decide_unpack _). vm_compute. exact I.
Defined.

(** ** Scores *)

Lemma map_set_keys_present k v (m : PlayersMap) p :
  map_get k m = Some p -> map_keys (map_set k v m) = map_keys m.
Proof.
  intros Hget. rewrite map_set_keys. unfold map_has. by rewrite Hget.
Qed.

Lemma map_set_same k (m : PlayersMap) p : map_get k m = Some p -> map_set k p m = m.
Proof.
  induction m as [ | [k' v'] m IH ]; [ discriminate | ].
  cbn [map_get map_set]. destruct (String.eqb_spec k' k) as [-> | Hne].
  - by intros [= ->].
  - intros H. by rewrite IH.
Qed.

(** X6. For an amount, a score and a sum that are safe integers (where the
    sum of two JavaScript numbers is their sum as integers), [addPoints]
    adds to the score of the player it names and to no other: it returns
    [true], the player keeps socket id and place in the map, every other
    player keeps the score, and nothing is emitted.  For a name that is not
    a player, and for [undefined], it returns [false] and changes
    nothing. *)
Theorem addPoints_outcome (username : option string) (pts : Z) (r : GameRoom) (h : Host) :
  isSafeInteger pts ->
  (forall u player,
     username = Some u -> map_get u (playersMap r) = Some player ->
     isSafeInteger (points player) /\ isSafeInteger (points player + pts)) ->
  let result := addPoints username pts (r, h) in
  let found := username ≫= (fun u => map_get u (playersMap r)) in
  result.2.2 = h /\
  map_keys (playersMap result.2.1) = map_keys (playersMap r) /\
  match username, found with
  | Some u, Some player =>
      result.1 = Return true /\
      map_get u (playersMap result.2.1) =
        Some (mkPlayer (socketId player) (points player + pts)) /\
      forall other, other ≠ u ->
        map_get other (playersMap result.2.1) = map_get other (playersMap r)
  | _, _ => result = (Return false, (r, h))
  end.
Proof.
  intros _ _. cbv zeta.
  destruct username as [u|];
    [ destruct (map_get u (playersMap r)) as [player|] eqn:Hget | ].
  - assert (E : addPoints (Some u) pts (r, h) =
                (Return true,
                 (set_playersMap
                    (map_set u (mkPlayer (socketId player) (points player + pts))
                       (playersMap r)) r, h))).
    { unfold addPoints, mbind, M_bind, this, assign, option_bind, fmap, option_fmap,
        option_map. cbn [fst snd]. rewrite Hget. reflexivity. }
    rewrite E. cbn [fst snd mbind option_bind]. rewrite Hget. fields.
    split; [ done | ]. split; [ by eapply map_set_keys_present | ].
    split; [ done | ]. split; [ apply map_get_set | ].
    intros other Hne. by apply map_get_set_other.
  - assert (E : addPoints (Some u) pts (r, h) = (Return false, (r, h))).
    { unfold addPoints, mbind, M_bind, this, assign, option_bind, fmap, option_fmap,
        option_map. cbn [fst snd]. rewrite Hget. reflexivity. }
    rewrite E. cbn [fst snd mbind option_bind]. by rewrite Hget.
  - done.
Qed.

(** Three points more for A, who has five after "Apple". *)
Lemma addPoints_outcome_witness :
  isSafeInteger 3 /\
  map_get "A" (playersMap played3.1) = Some (mkPlayer "sA" 5) /\
  let result := addPoints (Some "A") 3 (played3.1, played3.2) in
  let found := Some "A" ≫= (fun u => map_get u (playersMap played3.1)) in
  result.2.2 = played3.2 /\
  map_keys (playersMap result.2.1) = map_keys (playersMap played3.1) /\
  match Some "A", found with
  | Some u, Some player =>
      result.1 = Return true /\
      map_get u (playersMap result.2.1) =
        Some (mkPlayer (socketId player) (points player + 3)) /\
      forall other, other ≠ u ->
        map_get other (playersMap result.2.1) = map_get other (playersMap played3.1)
  | _, _ => result = (Return false, (played3.1, played3.2))
  end.
Proof.
  assert (Hpts : isSafeInteger 3) by (unfold isSafeInteger; lia).
  assert (Hget : map_get "A" (playersMap played3.1) = Some (mkPlayer "sA" 5))
    by (vm_compute; reflexivity).
  assert (Hsafe : forall u player,
             Some "A" = Some u -> map_get u (playersMap played3.1) = Some player ->
             isSafeInteger (points player) /\ isSafeInteger (points player + 3)).
  { intros u player [= <-] Hplayer. rewrite Hget in Hplayer. injection Hplayer as <-.
    cbn [points]. unfold isSafeInteger. lia. }
  split; [ exact Hpts | ]. split; [ exact Hget | ].
  exact (addPoints_outcome (Some "A") 3 played3.1 played3.2 Hpts Hsafe).
Defined.

(** ** The room never holds more than four players *)

Lemma map_set_length k v (m : PlayersMap) :
  length (map_set k v m) = if map_has k m then length m else S (length m).
Proof.
  destruct (map_has k m) eqn:E.
  - pose proof (map_set_keys k v m) as Hk. rewrite E in Hk.
    apply (f_equal length) in Hk. unfold map_keys in Hk.
    by rewrite !length_fmap in Hk.
  - rewrite (map_set_fresh _ _ _ E), length_app. cbn. lia.
Qed.

Lemma addPlayer_within_capacity u s : preserves within_capacity (addPlayer u s).
Proof.
  apply preserves_wp. intros r h [Hmax Hlen]. unfold addPlayer.
  wp_run; try done. split; fields; [ done | ].
  rewrite map_set_length.
  repeat match goal with
         | H : map_has _ _ = false |- _ => rewrite H
         | H : (_ <=? _)%nat = false |- _ => apply Nat.leb_gt in H
         end. lia.
Qed.

Lemma addPoints_within_capacity u pts : preserves within_capacity (addPoints u pts).
Proof.
  apply preserves_wp. intros r h [Hmax Hlen]. unfold addPoints.
  wp_run; try done. split; fields; [ done | ].
  match goal with
  | H : _ ≫= _ = Some _ |- _ =>
      destruct u as [name|]; [ | discriminate ]; cbn in H;
      destruct (map_get name (playersMap r)) as [found|] eqn:Hget; [ | discriminate ];
      cbn in H; injection H as <- <-
  end.
  rewrite map_set_length. unfold map_has. by rewrite Hget.
Qed.

Lemma removePlayer_within_capacity u : preserves within_capacity (removePlayer u).
Proof.
  apply preserves_wp. intros r h [Hmax Hlen]. unfold removePlayer.
  wp_run; try done; split; fields; try done.
  all: pose proof (map_delete_length u (playersMap r)); lia.
Qed.

#[export] Hint Resolve addPlayer_within_capacity addPoints_within_capacity
  removePlayer_within_capacity : room_inv.

(** The side condition of a field assignment that leaves the players and
    the capacity alone. *)
Ltac same_capacity := let r := fresh in let H := fresh in intros r H; exact H.

Lemma call_within_capacity shuffle c : preserves within_capacity (call shuffle c).
Proof.
  destruct c; cbn [call]; try solve [ preserve same_capacity ].
  apply fire_preserves; [ intros why | | ]; preserve same_capacity.
Qed.

Lemma new_GameRoom_within_capacity now file creator room socket host :
  within_capacity (new_GameRoom now file creator room socket host).1.
Proof.
  unfold new_GameRoom.
  match goal with
  | |- context [ ?m (?r0, host) ] =>
      assert (Hm : preserves within_capacity m) by preserve same_capacity;
      specialize (Hm (r0, host)); destruct (m (r0, host)) as [o [r h]]
  end.
  apply Hm. split; cbn; [ reflexivity | lia ].
Qed.

(** X7. However the methods of a room are called and whichever timers
    fire, the room never holds more than four players, and [maxPlayers]
    stays four. *)
Theorem reachable_within_capacity (shuffle : list string -> list string) (w : World) :
  reachable shuffle w ->
  maxPlayers w.1 = 4%nat /\ (length (playersMap w.1) <= 4)%nat.
Proof.
  apply (reachable_invariant within_capacity);
    auto using new_GameRoom_within_capacity, call_within_capacity.
Qed.

(** A fifth player knocks: the room of A, B, C and D stays a room of four. *)
Lemma reachable_within_capacity_witness :
  length (playersMap
            (step in_order (AddPlayer "E" "sE")
               (step in_order (AddPlayer "D" "sD") lobby3)).1) = 4%nat.
Proof.
  pose proof (reachable_within_capacity in_order
                (step in_order (AddPlayer "E" "sE")
                   (step in_order (AddPlayer "D" "sD") lobby3))) as H.
  destruct H as [_ Hle].
  - unfold lobby3, lobby. repeat apply reachable_step. apply reachable_new.
  - vm_compute. reflexivity.
Defined.

(** X8. After any sequence of method calls and timer firings on a new
    room, the players map has each name once, whatever the arguments of the
    calls; and when no [addPoints] of the sequence was given a negative
    amount, no score is negative: the methods themselves add only the length
    of a word, or zero. *)
Theorem reachable_unique_names_scores (shuffle : list string -> list string) (now : Z)
    (file : JSError + string) (creator room socket : string) (host : Host)
    (calls : list Call) :
  let w := run shuffle calls (new_GameRoom now file creator room socket host) in
  NoDup (map_keys (playersMap w.1)) /\
  ((forall username pts, AddPoints username pts ∈ calls -> 0 <= pts) ->
   Forall (fun entry : string * PlayerData => 0 <= points entry.2) (playersMap w.1)).
Proof.
  intros w. split.
  - apply run_unique_names.
  - intros Hpts. apply run_players_ok. apply Forall_forall.
    intros c Hc. destruct c; cbn [nonneg_amount]; try done.
    by eapply Hpts.
Qed.

(** A game of three, a word from A and two points given to B. *)
Lemma reachable_unique_names_scores_witness :
  let w := run in_order
             [AddPlayer "B" "sB"; AddPlayer "C" "sC"; StartGame; PlayWord "A" "Apple";
              AddPoints (Some "B") 2]
             (new_GameRoom 0 (inr words_txt) "A" "room_1" "sA" host0) in
  NoDup (map_keys (playersMap w.1)) /\
  Forall (fun entry : string * PlayerData => 0 <= points entry.2) (playersMap w.1).
Proof.
  cbv zeta.
  pose proof (reachable_unique_names_scores in_order 0 (inr words_txt) "A" "room_1" "sA"
                host0
                [AddPlayer "B" "sB"; AddPlayer "C" "sC"; StartGame; PlayWord "A" "Apple";
                 AddPoints (Some "B") 2]) as H.
  cbv zeta in H. destruct H as [Hnames Hscores].
  split; [ exact Hnames | ]. apply Hscores.
  intros username pts Hin.
  repeat (apply elem_of_cons in Hin as [Heq | Hin]; [ try discriminate | ]).
  - injection Heq as _ ->. lia.
  - by apply elem_of_nil in Hin.
Defined.

(** ** Starting a game *)

Lemma startGame_run (shuffle : list string -> list string) (r : GameRoom) (h : Host) :
  wp (startGame shuffle)
     (fun o w' =>
        if isGameStarted r then (o, w') = (Return false, (r, h))
        else if (length (playersMap r) <? 2)%nat then
          (o, w') =
          (Return false,
           (r, host_emit (mkEmit (roomId r) "gameStartedFailed"
                            (GameStartedFailed "Not enough players")) h))
        else
          o = Return true /\
          w'.1 = started_room shuffle r (nextTimer h) /\
          pending w'.2 =
            cleared (roundTimer r)
              (pending h ++ [mkTimer (nextTimer h) CbEndGame (30 * 60 * 1000)])
            ++ [mkTimer (S (nextTimer h)) CbHandleRoundTimeout (30 * 1000)] /\
          outbox w'.2 =
            outbox h ++
            [mkEmit (roomId r) "gameStarted"
               (GameStarted (Some (creatorUsername r))
                  (turnOrder (started_room shuffle r (nextTimer h))));
             turn_notice (Some (creatorUsername r)) r])
     (r, h).
Proof.
  unfold startGame, turn_notice, cleared, started_room.
  wp_run; fields; unfold host_emit, getUserSocket in *;
    cbn [lookup list_lookup mbind option_bind] in *; fields;
    repeat match goal with
           | H : socketId <$> _ = _ |- _ => rewrite H
           end;
    repeat split; try reflexivity; by rewrite <- app_assoc.
Qed.

(** X9. [startGame] never throws.  Called on a started game it returns
    [false] and changes nothing; with fewer than two players it returns
    [false], leaves the room as it was and broadcasts [gameStartedFailed];
    otherwise it returns [true], arms the thirty-minute game-end timer and
    then a thirty-second round timer (after clearing the one the room
    held), and emits [gameStarted] with the creator as first player and the
    turn order, followed by the turn notice to the creator. *)
Theorem startGame_outcome (shuffle : list string -> list string) (r : GameRoom) (h : Host) :
  let result := startGame shuffle (r, h) in
  (isGameStarted r = true -> result = (Return false, (r, h))) /\
  (isGameStarted r = false -> (length (playersMap r) < 2)%nat ->
     result =
     (Return false,
      (r, host_emit (mkEmit (roomId r) "gameStartedFailed"
                       (GameStartedFailed "Not enough players")) h))) /\
  (isGameStarted r = false -> (2 <= length (playersMap r))%nat ->
     result.1 = Return true /\
     result.2.1 = started_room shuffle r (nextTimer h) /\
     pending result.2.2 =
       cleared (roundTimer r)
         (pending h ++ [mkTimer (nextTimer h) CbEndGame (30 * 60 * 1000)])
       ++ [mkTimer (S (nextTimer h)) CbHandleRoundTimeout (30 * 1000)] /\
     outbox result.2.2 =
       outbox h ++
       [mkEmit (roomId r) "gameStarted"
          (GameStarted (Some (creatorUsername r))
             (turnOrder (started_room shuffle r (nextTimer h))));
        turn_notice (Some (creatorUsername r)) r]).
Proof.
  cbv zeta. pose proof (startGame_run shuffle r h) as Hrun. unfold wp in Hrun.
  destruct (startGame shuffle (r, h)) as [o w'] eqn:E. cbn [fst snd] in *.
  split; [ | split ].
  - intros Hs. by rewrite Hs in Hrun.
  - intros Hs Hlt. rewrite Hs in Hrun.
    by rewrite (proj2 (Nat.ltb_lt _ _) Hlt) in Hrun.
  - intros Hs Hge. rewrite Hs in Hrun.
    by rewrite (proj2 (Nat.ltb_ge _ _) Hge) in Hrun.
Qed.

(** A and B in the lobby: the game starts, and both timers are armed. *)
Lemma startGame_outcome_witness :
  let w := step in_order (AddPlayer "B" "sB") lobby in
  isGameStarted w.1 = false /\
  (2 <= length (playersMap w.1))%nat /\
  (startGame in_order (w.1, w.2)).1 = Return true /\
  (startGame in_order (w.1, w.2)).2.1 = started_room in_order w.1 (nextTimer w.2).
Proof.
  cbv zeta.
  assert (Hlobby : isGameStarted (step in_order (AddPlayer "B" "sB") lobby).1 = false)
    by (vm_compute; reflexivity).
  assert (Htwo : (2 <= length (playersMap (step in_order (AddPlayer "B" "sB") lobby).1))%nat)
    by (vm_compute; lia).
  split; [ exact Hlobby | ]. split; [ exact Htwo | ].
  pose proof (startGame_outcome in_order
                (step in_order (AddPlayer "B" "sB") lobby).1
                (step in_order (AddPlayer "B" "sB") lobby).2) as H.
  cbv zeta in H. destruct H as (_ & _ & H).
  destruct (H Hlobby Htwo) as (Hret & Hroom & _).
  split; [ exact Hret | exact Hroom ].
Defined.

(** ** What an accepted word had to pass *)

Lemma validateWordPlay_accepted_wp (username word : string) (r : GameRoom) (h : Host) :
  wp (validateWordPlay username word)
     (fun o w' =>
        forall v, o = Return v -> valid v = true ->
          w' = (r, h) /\
          currentTurn r = Some username /\
          exists words,
            validWords r = WordSet words /\
            trim (toLowerCase word) ∈ words /\
            (no_lastWord r = true \/
             no_lastWord r = false /\
             toLowerCase (charAt0 word) =
               toLowerCase (slice_last (default "" (lastWord r))) /\
             toLowerCase word ∉ usedWordSet r))
     (r, h).
Proof.
  unfold validateWordPlay, isValidWord, isPlayerTurn.
  wp_run; intros v [= <-] Hv; try discriminate Hv;
    repeat match goal with
           | H : negb _ = false |- _ => apply negb_false_iff in H
           | H : bool_decide _ = true |- _ => apply bool_decide_eq_true_1 in H
           | H : bool_decide _ = false |- _ => apply bool_decide_eq_false_1 in H
           | H : String.eqb _ _ = true |- _ => apply String.eqb_eq in H
           end;
    (split; [ reflexivity | ]); (split; [ assumption | ]);
    eexists; (split; [ reflexivity | ]); (split; [ assumption | ]); auto.
Qed.

(** X10. [validateWordPlay] accepts a word only when it is the player's
    turn, the dictionary is a set that holds the trimmed lower-case word,
    and either there is no last word, or the word starts with the last
    letter of the last word and its lower-case form was not used; and an
    accepting validation has written and emitted nothing. *)
Theorem validateWordPlay_accepted (username word : string) (r : GameRoom) (h : Host)
    (v : Validation) (w' : World) :
  validateWordPlay username word (r, h) = (Return v, w') ->
  valid v = true ->
  w' = (r, h) /\
  currentTurn r = Some username /\
  exists words,
    validWords r = WordSet words /\
    trim (toLowerCase word) ∈ words /\
    (no_lastWord r = true \/
     no_lastWord r = false /\
     toLowerCase (charAt0 word) = toLowerCase (slice_last (default "" (lastWord r))) /\
     toLowerCase word ∉ usedWordSet r).
Proof.
  intros E Hv.
  exact (wp_elim _ _ _ _ _ (validateWordPlay_accepted_wp username word r h) E v eq_refl Hv).
Qed.

Lemma validateWordPlay_accepted_witness :
  currentTurn played3.1 = Some "B" /\
  exists words, validWords played3.1 = WordSet words /\ "egg" ∈ words.
Proof.
  destruct (validateWordPlay_accepted "B" "EGG" played3.1 played3.2
              (mkValidation true "Valid word") (played3.1, played3.2))
    as (_ & Hturn & words & Hdict & Hin & _).
  - vm_compute. reflexivity.
  - reflexivity.
  - split; [ exact Hturn | ]. exists words. split; [ exact Hdict | exact Hin ].
Defined.

(** X11. In a room whose dictionary is not a set (the word list failed to
    load), no word validates: out of turn the answer is "Not your turn",
    and in turn the [TypeError] of [isValidWord] is caught, broadcast to the
    room as [errorOccurred], and answered with a rejection.  The room is
    unchanged either way. *)
Theorem validateWordPlay_without_dictionary (username word : string) (r : GameRoom)
    (h : Host) :
  (forall words, validWords r ≠ WordSet words) ->
  let answer := validateWordPlay username word (r, h) in
  answer.2.1 = r /\
  (exists v, answer.1 = Return v /\ valid v = false) /\
  (currentTurn r = Some username ->
   answer =
   (Return (mkValidation false "An unexpected error occurred during word validation"),
    (r, host_emit
          (mkEmit (roomId r) "errorOccurred"
             (ErrorOccurred "An unexpected error occurred in the game"
                "TypeError: this.validWords.has is not a function")) h))).
Proof.
  intros Hnone. cbv zeta.
  destruct (decide (currentTurn r = Some username)) as [Hturn | Hturn].
  - assert (E : validateWordPlay username word (r, h) =
                (Return (mkValidation false
                           "An unexpected error occurred during word validation"),
                 (r, host_emit
                       (mkEmit (roomId r) "errorOccurred"
                          (ErrorOccurred "An unexpected error occurred in the game"
                             "TypeError: this.validWords.has is not a function")) h))).
    { unfold validateWordPlay, try_catch, isValidWord, mbind, M_bind, this, isPlayerTurn.
      cbn [fst snd]. rewrite (bool_decide_eq_true_2 _ Hturn). cbn [negb fst snd].
      destruct (validWords r) as [words | b | ] eqn:Hw; [ by destruct (Hnone words) | | ];
        reflexivity. }
    rewrite E. cbn [fst snd]. split; [ done | ]. split; [ eauto | done ].
  - rewrite (validateWordPlay_not_turn _ _ _ _ Hturn). cbn [fst snd].
    split; [ done | ]. split; [ eauto | done ].
Qed.

Lemma validateWordPlay_without_dictionary_witness :
  (validateWordPlay "A" "apple" (started_without_words.1, started_without_words.2)).1 =
  Return (mkValidation false "An unexpected error occurred during word validation").
Proof.
  destruct (validateWordPlay_without_dictionary "A" "apple"
              started_without_words.1 started_without_words.2) as (_ & _ & E).
  - intros words. vm_compute. discriminate.
  - rewrite E; [ reflexivity | ]. vm_compute. reflexivity.
Defined.

(** ** An accepted play *)

Lemma wp_addPoints username pts Q r h :
  (forall b, Q (Return b) (scored username pts r, h)) ->
  wp (addPoints username pts) Q (r, h).
Proof.
  intros HQ.
  assert (E : exists b, addPoints username pts (r, h) =
                        (Return b, (scored username pts r, h))).
  { unfold addPoints, scored, mbind, M_bind, this, assign, option_bind. cbn [fst snd].
    destruct username as [u|]; [ | by exists false ].
    destruct (map_get u (playersMap r)) as [player|]; cbn; eauto. }
  destruct E as [b E]. unfold wp. rewrite E. apply HQ.
Qed.

Lemma cleared_twice t timers : cleared t (cleared t timers) = cleared t timers.
Proof.
  destruct t as [x|]; [ | reflexivity ]. cbn [cleared].
  induction timers as [ | timer timers IH ]; [ reflexivity | ].
  rewrite filter_cons. destruct (decide (handle timer ≠ x)) as [Hne | Heq].
  - rewrite filter_cons, decide_True by done. by rewrite IH.
  - exact IH.
Qed.

Lemma scored_frame username pts r :
  turnOrder (scored username pts r) = turnOrder r /\
  currentTurnIndex (scored username pts r) = currentTurnIndex r /\
  currentTurn (scored username pts r) = currentTurn r /\
  usedWordSet (scored username pts r) = usedWordSet r /\
  lastWord (scored username pts r) = lastWord r /\
  validWords (scored username pts r) = validWords r /\
  roundTimer (scored username pts r) = roundTimer r /\
  roomId (scored username pts r) = roomId r /\
  map_keys (playersMap (scored username pts r)) = map_keys (playersMap r).
Proof.
  unfold scored. destruct username as [u|]; cbn; [ | done ].
  destruct (map_get u (playersMap r)) as [player|] eqn:Hget; cbn; [ | done ].
  repeat split. by eapply map_set_keys_present.
Qed.

Lemma scored_get (u : string) pts r :
  map_get u (playersMap (scored (Some u) pts r)) =
  (fun player => mkPlayer (socketId player) (points player + pts))
    <$> map_get u (playersMap r).
Proof.
  unfold scored. cbn.
  destruct (map_get u (playersMap r)) as [player|] eqn:Hget; cbn.
  - apply map_get_set.
  - exact Hget.
Qed.

Lemma scored_get_other (u other : string) pts r :
  other ≠ u ->
  map_get other (playersMap (scored (Some u) pts r)) = map_get other (playersMap r).
Proof.
  intros Hne. unfold scored. cbn.
  destruct (map_get u (playersMap r)) as [player|] eqn:Hget; cbn; [ | done ].
  by apply map_get_set_other.
Qed.

Lemma scored_zero username r : scored username 0 r = r.
Proof.
  unfold scored. destruct username as [u|]; cbn; [ | done ].
  destruct (map_get u (playersMap r)) as [player|] eqn:Hget; cbn; [ | done ].
  rewrite Z.add_0_r.
  replace (mkPlayer (socketId player) (points player)) with player by (by destruct player).
  rewrite (map_set_same _ _ _ Hget). by destruct r.
Qed.

(** The try block of [playWord], from the room and host validation left. *)
Lemma playWord_accepted_run (username word : string) (r : GameRoom) (h : Host)
    (v : Validation) :
  validateWordPlay username word (r, h) = (Return v, (r, h)) ->
  valid v = true ->
  let result := playWord username word (r, h) in
  let r' := played_room username word r (nextTimer h) in
  result.1 = Return true /\
  result.2.1 = r' /\
  pending result.2.2 =
    cleared (roundTimer r) (pending h)
    ++ [mkTimer (nextTimer h) CbHandleRoundTimeout (30 * 1000)] /\
  outbox result.2.2 =
    outbox h ++
    [mkEmit (roomId r) "wordPlayed"
       (WordPlayed username word (Z.of_nat (String.length word)));
     mkEmit (roomId r) "turnChanged" (TurnChanged (currentTurn r'));
     turn_notice (currentTurn r') r'].
Proof.
  intros E Hv. cbv zeta.
  assert (Hrun : wp (playWord username word)
                   (fun o w' =>
                      o = Return true /\
                      w'.1 = played_room username word r (nextTimer h) /\
                      pending w'.2 =
                        cleared (roundTimer r) (cleared (roundTimer r) (pending h))
                        ++ [mkTimer (nextTimer h) CbHandleRoundTimeout (30 * 1000)] /\
                      outbox w'.2 =
                        outbox h ++
                        [mkEmit (roomId r) "wordPlayed"
                           (WordPlayed username word (Z.of_nat (String.length word)));
                         mkEmit (roomId r) "turnChanged"
                           (TurnChanged
                              (currentTurn (played_room username word r (nextTimer h))));
                         turn_notice
                           (currentTurn (played_room username word r (nextTimer h)))
                           (played_room username word r (nextTimer h))])
                   (r, h)).
  { unfold playWord. apply wp_bind. unfold wp at 1. rewrite E. cbn [fst snd].
    rewrite Hv. cbn [negb].
    destruct (scored_frame (Some username) (Z.of_nat (String.length word)) r)
      as (Ho & Hi & Hc & Hu & Hl & Hw & Ht & Hid & Hk).
    apply wp_try_catch, wp_bind, wp_this. cbn [fst snd].
    apply wp_bind.
    assert (Hclear : forall Q : Outcome unit -> World -> Prop,
               Q (Return tt)
                 (r, mkHost (outbox h) (cleared (roundTimer r) (pending h)) (nextTimer h)) ->
               wp (clear_if_set (roundTimer r)) Q (r, h)).
    { intros Q HQ. unfold clear_if_set, cleared in *.
      destruct (roundTimer r); [ by apply wp_clearTimeout | ].
      apply wp_ret. by destruct h. }
    apply Hclear. apply wp_bind, wp_addPoints. intros b.
    unfold addUsedWords, nextTurn, startRound, sendToPlayer, broadcast, handleError.
    wp_run; unfold played_room, turn_passed, word_used, turn_notice, clear_if_set,
      cleared, host_emit, getUserSocket in *; fields;
      rewrite ?Ho, ?Hi, ?Hc, ?Hu, ?Hl, ?Ht, ?Hid in *;
      repeat match goal with
             | H : roundTimer r = _ |- _ => rewrite H in *
             | H : _ = roundTimer r |- _ => rewrite <- H in *
             | H : _ ≫= _ = _ |- _ => rewrite H
             end;
      repeat split; try reflexivity;
      rewrite <- ?app_assoc; try reflexivity. }
  unfold wp in Hrun. rewrite cleared_twice in Hrun. exact Hrun.
Qed.

(** X12. An accepted play returns [true] and does exactly this: the
    player's score grows by the length of the word as submitted (a current
    player who is not in the map scores nothing) and no other score
    changes; the lower-case word joins the used words and becomes the last
    word; the turn index moves one place on, modulo the length of the turn
    order, and [currentTurn] is the name at that index; the round timer the
    room held is cleared and a new thirty-second one is armed and stored;
    and the room gets [wordPlayed], then [turnChanged], then the turn notice
    for the new current player. *)
Theorem playWord_accepted (username word : string) (r : GameRoom) (h : Host)
    (v : Validation) (w1 : World) :
  validateWordPlay username word (r, h) = (Return v, w1) ->
  valid v = true ->
  let result := playWord username word (r, h) in
  let r' := result.2.1 in
  let n := Z.of_nat (String.length word) in
  result.1 = Return true /\
  map_get username (playersMap r') =
    (fun player => mkPlayer (socketId player) (points player + n))
      <$> map_get username (playersMap r) /\
  (forall other, other ≠ username ->
     map_get other (playersMap r') = map_get other (playersMap r)) /\
  usedWordSet r' = {[toLowerCase word]} ∪ usedWordSet r /\
  lastWord r' = Some (toLowerCase word) /\
  turnOrder r' = turnOrder r /\
  currentTurnIndex r' = succ_mod (currentTurnIndex r) (length (turnOrder r)) /\
  currentTurn r' = at_index (turnOrder r) (currentTurnIndex r') /\
  roundTimer r' = Some (nextTimer h) /\
  pending result.2.2 =
    cleared (roundTimer r) (pending h)
    ++ [mkTimer (nextTimer h) CbHandleRoundTimeout (30 * 1000)] /\
  outbox result.2.2 =
    outbox h ++
    [mkEmit (roomId r) "wordPlayed" (WordPlayed username word n);
     mkEmit (roomId r) "turnChanged" (TurnChanged (currentTurn r'));
     turn_notice (currentTurn r') r'].
Proof.
  intros E Hv.
  destruct (wp_elim _ _ _ _ _ (validateWordPlay_accepted_wp username word r h) E
              v eq_refl Hv) as [-> _].
  destruct (playWord_accepted_run username word r h v E Hv)
    as (Hret & Hroom & Hpending & Hout).
  cbv zeta in *. destruct (playWord username word (r, h)) as [o [r' h']].
  cbn [fst snd] in *. subst o r'.
  destruct (scored_frame (Some username) (Z.of_nat (String.length word)) r)
    as (Ho & Hi & Hc & Hu & Hl & Hw & Ht & Hid & Hk).
  split; [ reflexivity | ].
  unfold played_room, turn_passed, word_used in *. fields.
  rewrite Ho, Hi, Hu in *.
  split; [ apply scored_get | ].
  split; [ intros other Hne; by apply scored_get_other | ].
  repeat (split; [ reflexivity | ]).
  split; [ exact Hpending | exact Hout ].
Qed.

Lemma playWord_accepted_witness :
  (playWord "B" "EGG" (played3.1, played3.2)).1 = Return true /\
  lastWord (playWord "B" "EGG" (played3.1, played3.2)).2.1 = Some "egg".
Proof.
  assert (E : validateWordPlay "B" "EGG" (played3.1, played3.2) =
              (Return (mkValidation true "Valid word"), (played3.1, played3.2)))
    by (vm_compute; reflexivity).
  pose proof (playWord_accepted "B" "EGG" played3.1 played3.2 _ _ E eq_refl) as H.
  cbv zeta in H. destruct H as (Hret & _ & _ & _ & Hlast & _).
  split; [ exact Hret | exact Hlast ].
Defined.

(** X13. A word that was just accepted is not accepted again: after an
    accepted play of a non-empty word, [validateWordPlay] rejects every
    submission with the same lower-case form, whoever submits it. *)
Theorem accepted_word_not_again (username word : string) (r : GameRoom) (h : Host)
    (v : Validation) (w1 : World) :
  validateWordPlay username word (r, h) = (Return v, w1) ->
  valid v = true ->
  word ≠ "" ->
  forall other again,
    toLowerCase again = toLowerCase word ->
    exists v' w',
      validateWordPlay other again (playWord username word (r, h)).2 = (Return v', w') /\
      valid v' = false.
Proof.
  intros E Hv Hword other again Hsame.
  destruct (wp_elim _ _ _ _ _ (validateWordPlay_accepted_wp username word r h) E
              v eq_refl Hv) as (-> & _ & words & Hdict & _).
  destruct (playWord_accepted_run username word r h v E Hv) as (_ & Hroom & _).
  destruct (playWord username word (r, h)) as [o [r' h']]. cbn [fst snd] in *.
  destruct (scored_frame (Some username) (Z.of_nat (String.length word)) r)
    as (Ho & Hi & Hc & Hu & Hl & Hw & Ht & Hid & Hk).
  assert (Hdict' : validWords r' = WordSet words).
  { rewrite Hroom. unfold played_room, turn_passed, word_used. fields. congruence. }
  assert (Hlast : lastWord r' = Some (toLowerCase word)) by (by rewrite Hroom).
  assert (Hused : toLowerCase again ∈ usedWordSet r').
  { rewrite Hroom. unfold played_room, turn_passed, word_used. fields.
    rewrite Hsame. apply elem_of_union_l. by apply elem_of_singleton. }
  assert (Hno : no_lastWord r' = false).
  { unfold no_lastWord. rewrite Hlast. destruct word; [ done | reflexivity ]. }
  rewrite (validateWordPlay_loaded _ _ _ _ _ Hdict'), Hno.
  rewrite (bool_decide_eq_true_2 _ Hused).
  do 2 eexists. split; [ reflexivity | ].
  repeat match goal with |- context [ if ?c then _ else _ ] => destruct c end;
    reflexivity.
Qed.

Lemma accepted_word_not_again_witness :
  exists v' w',
    validateWordPlay "C" "egg" (playWord "B" "EGG" (played3.1, played3.2)).2 =
    (Return v', w') /\ valid v' = false.
Proof.
  assert (E : validateWordPlay "B" "EGG" (played3.1, played3.2) =
              (Return (mkValidation true "Valid word"), (played3.1, played3.2)))
    by (vm_compute; reflexivity).
  apply (accepted_word_not_again "B" "EGG" played3.1 played3.2 _ _ E eq_refl).
  - discriminate.
  - vm_compute. reflexivity.
Defined.

(** ** Used words stay used *)

(** The side condition of a field assignment that leaves the phase and
    the used words alone. *)
Ltac same_game := let r := fresh in let H := fresh in intros r H; exact H.

Lemma addUsedWords_started_with kept word : preserves (started_with kept) (addUsedWords word).
Proof.
  intros [r h] [Hs Hk]. unfold addUsedWords, started_with; simpl.
  split; [ exact Hs | set_solver ].
Qed.

Lemma startGame_started_with kept shuffle : preserves (started_with kept) (startGame shuffle).
Proof.
  apply preserves_wp. intros r h [Hs Hk].
  eapply wp_mono; [ apply startGame_run | ].
  intros o w'. rewrite Hs. by intros [= _ ->].
Qed.

#[export] Hint Resolve addUsedWords_started_with startGame_started_with : room_inv.

Lemma call_started_with kept shuffle c : preserves (started_with kept) (call shuffle c).
Proof.
  destruct c; cbn [call]; try solve [ preserve same_game ].
  apply fire_preserves; [ intros why | | ]; preserve same_game.
Qed.

(** X14. Once a game has started, no call and no timer takes a word out of
    the used words, and the game stays started: [startGame], the one method
    that empties the set, refuses a started game. *)
Theorem used_words_stay_used (shuffle : list string -> list string) (c : Call) (w : World) :
  isGameStarted w.1 = true ->
  isGameStarted (step shuffle c w).1 = true /\
  usedWordSet w.1 ⊆ usedWordSet (step shuffle c w).1.
Proof.
  intros Hs. by apply (call_started_with (usedWordSet w.1) shuffle c w).
Qed.

Lemma used_words_stay_used_witness :
  usedWordSet played3.1 ⊆ usedWordSet (step in_order StartGame played3).1.
Proof.
  refine (proj2 (used_words_stay_used in_order StartGame played3 _)).
  vm_compute. reflexivity.
Defined.

(** ** A round that times out *)

Lemma handleRoundTimeout_run (r : GameRoom) (h : Host) :
  wp handleRoundTimeout
     (fun o w' =>
        o = Return tt /\
        w'.1 = set_roundTimer (Some (nextTimer h)) (turn_passed r) /\
        pending w'.2 =
          cleared (roundTimer r) (pending h)
          ++ [mkTimer (nextTimer h) CbHandleRoundTimeout (30 * 1000)] /\
        outbox w'.2 =
          outbox h ++
          [mkEmit (roomId r) "turnTimedOut" (TurnTimedOut (currentTurn r));
           mkEmit (roomId r) "turnChanged" (TurnChanged (currentTurn (turn_passed r)));
           turn_notice (currentTurn (turn_passed r)) (turn_passed r)])
     (r, h).
Proof.
  unfold handleRoundTimeout. apply wp_bind, wp_this. cbn [fst snd].
  apply wp_bind, wp_addPoints. intros b. rewrite scored_zero.
  unfold nextTurn, startRound, sendToPlayer, broadcast, handleError.
  wp_run; unfold turn_passed, turn_notice, clear_if_set, cleared, host_emit,
    getUserSocket in *; fields;
    repeat match goal with
           | H : roundTimer r = _ |- _ => rewrite H in *
           | H : _ ≫= _ = _ |- _ => rewrite H
           end;
    repeat split; try reflexivity;
    rewrite <- ?app_assoc; try reflexivity.
Qed.

(** X15. A round timeout changes no score and no word: [handleRoundTimeout]
    leaves the players map, the used words and the last word as they were,
    moves the turn index one place on modulo the length of the turn order
    and sets [currentTurn] to the name there, arms and stores a new
    thirty-second round timer after clearing the one the room held, and
    emits [turnTimedOut] for the player who held the turn, then
    [turnChanged], then the turn notice for the new current player. *)
Theorem handleRoundTimeout_outcome (r : GameRoom) (h : Host) :
  let result := handleRoundTimeout (r, h) in
  let r' := result.2.1 in
  result.1 = Return tt /\
  playersMap r' = playersMap r /\
  usedWordSet r' = usedWordSet r /\ lastWord r' = lastWord r /\
  turnOrder r' = turnOrder r /\
  currentTurnIndex r' = succ_mod (currentTurnIndex r) (length (turnOrder r)) /\
  currentTurn r' = at_index (turnOrder r) (currentTurnIndex r') /\
  roundTimer r' = Some (nextTimer h) /\
  pending result.2.2 =
    cleared (roundTimer r) (pending h)
    ++ [mkTimer (nextTimer h) CbHandleRoundTimeout (30 * 1000)] /\
  outbox result.2.2 =
    outbox h ++
    [mkEmit (roomId r) "turnTimedOut" (TurnTimedOut (currentTurn r));
     mkEmit (roomId r) "turnChanged" (TurnChanged (currentTurn r'));
     turn_notice (currentTurn r') r'].
Proof.
  pose proof (handleRoundTimeout_run r h) as Hrun. unfold wp in Hrun.
  cbv zeta. destruct (handleRoundTimeout (r, h)) as [o [r' h']].
  cbn [fst snd] in *. destruct Hrun as (-> & -> & Hpending & Hout).
  unfold turn_passed in *. fields.
  repeat (split; [ reflexivity | ]). split; [ exact Hpending | exact Hout ].
Qed.

(** ** Turns go round *)

Lemma turns_index (n : nat) (r : GameRoom) (h : Host) (i : nat) :
  (i < length (turnOrder r))%nat ->
  currentTurnIndex r = Some i ->
  turnOrder (turns n (r, h)).1 = turnOrder r /\
  currentTurnIndex (turns n (r, h)).1 = Some ((i + n) mod length (turnOrder r))%nat /\
  ((0 < n)%nat ->
   currentTurn (turns n (r, h)).1 =
   turnOrder r !! ((i + n) mod length (turnOrder r))%nat).
Proof.
  intros Hi Hidx. induction n as [ | n (IHo & IHi & _) ].
  - cbn. rewrite Nat.add_0_r, Nat.mod_small by done. repeat split; [ done | lia ].
  - cbn [turns]. destruct (turns n (r, h)) as [r1 h1] eqn:E.
    cbn [fst snd] in *.
    assert (Hne : turnOrder r1 ≠ []) by (rewrite IHo; destruct (turnOrder r); [ cbn in Hi; lia | done ]).
    destruct (nextTurn_coupled r1 h1 _ Hne IHi) as (Ho & Hi' & Hc & _).
    cbv zeta in *. rewrite Ho, IHo in *.
    assert (Hstep : (((i + n) mod length (turnOrder r) + 1) mod length (turnOrder r) =
                     (i + S n) mod length (turnOrder r))%nat).
    { rewrite Nat.Div0.add_mod_idemp_l. f_equal. lia. }
    rewrite Hstep in Hi'. repeat split; [ exact Hi' | ].
    intros _. rewrite Hc, Hi'. reflexivity.
Qed.

(** X16. The turn goes round: on a turn order of [n] names with the index
    inside it, [k] calls of [nextTurn()] leave the turn order as it is and
    the index at [(i + k) mod n], with [currentTurn] the name there; after
    [n] calls the index and the current player are those the round began
    with. *)
Theorem nextTurn_full_cycle (r : GameRoom) (h : Host) (i : nat) :
  (i < length (turnOrder r))%nat ->
  currentTurnIndex r = Some i ->
  (forall k, (0 < k)%nat ->
     turnOrder (turns k (r, h)).1 = turnOrder r /\
     currentTurnIndex (turns k (r, h)).1 = Some ((i + k) mod length (turnOrder r))%nat /\
     currentTurn (turns k (r, h)).1 =
       turnOrder r !! ((i + k) mod length (turnOrder r))%nat) /\
  currentTurnIndex (turns (length (turnOrder r)) (r, h)).1 = Some i /\
  currentTurn (turns (length (turnOrder r)) (r, h)).1 = turnOrder r !! i.
Proof.
  intros Hi Hidx.
  assert (Hback : ((i + length (turnOrder r)) mod length (turnOrder r) = i)%nat).
  { rewrite <- Nat.Div0.add_mod_idemp_r, Nat.Div0.mod_same, Nat.add_0_r.
    by apply Nat.mod_small. }
  split; [ | split ].
  - intros k Hk. destruct (turns_index k r h i Hi Hidx) as (Ho & Hi' & Hc). auto.
  - destruct (turns_index (length (turnOrder r)) r h i Hi Hidx) as (_ & Hi' & _).
    by rewrite Hi', Hback.
  - destruct (turns_index (length (turnOrder r)) r h i Hi Hidx) as (_ & _ & Hc).
    rewrite Hc by lia. by rewrite Hback.
Qed.

Lemma nextTurn_full_cycle_witness :
  currentTurn (turns 3 (played3.1, played3.2)).1 = Some "B".
Proof.
  destruct (nextTurn_full_cycle played3.1 played3.2 1) as (_ & _ & Hc).
  - vm_compute. lia.
  - vm_compute. reflexivity.
  - change 3%nat with (length (turnOrder played3.1)).
    rewrite Hc. vm_compute. reflexivity.
Defined.

(** ** The player who holds the turn leaves *)

Lemma spliced_cons u x (l : list string) :
  spliced u (x :: l) = if String.eqb x u then l else x :: spliced u l.
Proof.
  unfold spliced. cbn [indexOf]. destruct (String.eqb x u); [ reflexivity | ].
  by destruct (indexOf u l).
Qed.

Lemma spliced_absent u (l : list string) : NoDup l -> u ∉ spliced u l.
Proof.
  induction 1 as [ | x l Hx Hl IH ]; [ apply not_elem_of_nil | ].
  rewrite spliced_cons. destruct (String.eqb_spec x u) as [-> | Hne]; [ done | ].
  apply not_elem_of_cons. split; [ by intros -> | done ].
Qed.

(** X17. When the player who holds the turn leaves and a name is left in
    a turn order without repeats, [removePlayer] returns [true], takes the
    player out of the players map and of the turn order, and hands the turn
    to a name of the shortened turn order, never the one who left: the index
    is [(i + 1)] modulo the new length and [currentTurn] is the name at that
    index. *)
Theorem removePlayer_current_passes_turn (username : string) (r : GameRoom) (h : Host)
    (i : nat) :
  map_has username (playersMap r) = true ->
  currentTurn r = Some username ->
  currentTurnIndex r = Some i ->
  NoDup (turnOrder r) ->
  spliced username (turnOrder r) ≠ [] ->
  let result := removePlayer username (r, h) in
  let r' := result.2.1 in
  result.1 = Return true /\
  map_has username (playersMap r') = false /\
  turnOrder r' = spliced username (turnOrder r) /\
  (username ∉ turnOrder r') /\
  currentTurnIndex r' = Some ((i + 1) mod length (turnOrder r'))%nat /\
  currentTurn r' = at_index (turnOrder r') (currentTurnIndex r') /\
  exists next, currentTurn r' = Some next /\ next ∈ turnOrder r' /\ next ≠ username.
Proof.
  intros Hhas Hturn Hidx Hnodup Hleft. cbv zeta.
  assert (Hlen : (0 < length (spliced username (turnOrder r)))%nat)
    by (destruct (spliced username (turnOrder r)); [ done | cbn; lia ]).
  pose proof (removePlayer_wp username r h Hhas (proj2 (Nat.ltb_lt _ _) Hlen)) as Hwp.
  unfold wp in Hwp. destruct (removePlayer username (r, h)) as [o [r' h']].
  cbn [fst snd] in *. destruct Hwp as (-> & -> & _).
  unfold room_without. rewrite (bool_decide_eq_true_2 _ Hturn), Hidx. fields.
  pose proof (spliced_absent username _ Hnodup) as Habsent.
  unfold succ_mod.
  destruct (length (spliced username (turnOrder r))) as [ | n ] eqn:Hn; [ lia | ].
  assert (Hlt : ((i + 1) mod S n < length (spliced username (turnOrder r)))%nat)
    by (rewrite Hn; apply Nat.mod_upper_bound; lia).
  destruct (lookup_lt_is_Some_2 _ _ Hlt) as [next Hnext].
  split; [ reflexivity | ]. split; [ apply map_has_delete | ].
  repeat (split; [ done | ]).
  exists next. cbn. split; [ exact Hnext | ].
  assert (Hin : next ∈ spliced username (turnOrder r))
    by (by eapply list_elem_of_lookup_2).
  split; [ exact Hin | ]. intros ->. by apply Habsent.
Qed.

Lemma removePlayer_current_passes_turn_witness :
  exists next,
    currentTurn (removePlayer "B" (played3.1, played3.2)).2.1 = Some next /\
    next ≠ "B".
Proof.
  assert (Hhas : map_has "B" (playersMap played3.1) = true) by (vm_compute; reflexivity).
  assert (Hturn : currentTurn played3.1 = Some "B") by (vm_compute; reflexivity).
  assert (Hidx : currentTurnIndex played3.1 = Some 1%nat) by (vm_compute; reflexivity).
  assert (Hnodup : NoDup (turnOrder played3.1))
    by (apply (bool_decide_unpack _); vm_compute; exact I).
  assert (Hleft : spliced "B" (turnOrder played3.1) ≠ []) by (vm_compute; discriminate).
  destruct (removePlayer_current_passes_turn "B" played3.1 played3.2 1
              Hhas Hturn Hidx Hnodup Hleft)
    as (_ & _ & _ & _ & _ & _ & next & Hnext & _ & Hne).
  exists next. split; [ exact Hnext | exact Hne ].
Defined.

(** ** The dictionary *)

Lemma toLowerCase_char_twice (c : ascii) :
  toLowerCase_char (toLowerCase_char c) = toLowerCase_char c.
Proof. destruct c as [[] [] [] [] [] [] [] []]; reflexivity. Qed.

Lemma toLowerCase_twice (s : string) : toLowerCase (toLowerCase s) = toLowerCase s.
Proof.
  induction s as [ | c s IH ]; [ reflexivity | ].
  cbn [toLowerCase]. by rewrite toLowerCase_char_twice, IH.
Qed.

Lemma toLowerCase_charAt0 (s : string) :
  toLowerCase (charAt0 (toLowerCase s)) = toLowerCase (charAt0 s).
Proof.
  destruct s as [ | c s ]; [ reflexivity | ].
  cbn [toLowerCase charAt0]. by rewrite toLowerCase_char_twice.
Qed.

(** X18. Validation does not look at letter case.  For every word on
    which lower-casing twice is lower-casing once, and on which lower-casing
    the word does not change what its first code unit lower-cases to (every
    word of code units below 256, as the strings here are; in JavaScript a
    word that begins with U+0130 is not one), [isValidWord] and
    [validateWordPlay] give for the lower-case form of the word the same
    outcome, reason and emissions as for the word itself, for every player
    and world. *)
Theorem validation_ignores_case (username word : string) (w : World) :
  toLowerCase (toLowerCase word) = toLowerCase word ->
  toLowerCase (charAt0 (toLowerCase word)) = toLowerCase (charAt0 word) ->
  isValidWord (toLowerCase word) w = isValidWord word w /\
  validateWordPlay username (toLowerCase word) w = validateWordPlay username word w.
Proof.
  intros Htwice Hfirst. unfold validateWordPlay, isValidWord.
  by rewrite Htwice, Hfirst.
Qed.

(** "EGG" from B after "Apple" is judged as "egg" is. *)
Lemma validation_ignores_case_witness :
  toLowerCase (toLowerCase "EGG") = toLowerCase "EGG" /\
  toLowerCase (charAt0 (toLowerCase "EGG")) = toLowerCase (charAt0 "EGG") /\
  isValidWord (toLowerCase "EGG") played3 = isValidWord "EGG" played3 /\
  validateWordPlay "B" (toLowerCase "EGG") played3 = validateWordPlay "B" "EGG" played3.
Proof.
  split; [ vm_compute; reflexivity | ]. split; [ vm_compute; reflexivity | ].
  apply (validation_ignores_case "B" "EGG" played3).
  - vm_compute. reflexivity.
  - vm_compute. reflexivity.
Defined.

Lemma new_GameRoom_validWords now text creator room socket host :
  validWords (new_GameRoom now (inr text) creator room socket host).1 =
  WordSet (loaded_words text).
Proof. reflexivity. Qed.

Lemma elem_of_loaded_words (x text : string) :
  x ∈ loaded_words text <->
  x ≠ "" /\ exists line, line ∈ split_lines text /\ x = trim (toLowerCase line).
Proof.
  unfold loaded_words.
  rewrite elem_of_list_to_set, list_elem_of_filter, list_elem_of_fmap.
  assert (Hlen : (0 < String.length x)%nat <-> x ≠ "")
    by (destruct x; cbn; split; [ lia | done | done | lia ]).
  rewrite Hlen.
  split; intros [Hx (line & H1 & H2)]; (split; [ exact Hx | ]);
    exists line; split; assumption.
Qed.

(** X19. In a room constructed with a readable words.txt, a word is valid
    exactly when its trimmed lower-case form is not empty and is the
    trimmed lower-case form of a line of the file: every non-blank line
    validates in any letter case and with any white space around it, blank
    lines add no word, and [isValidWord] neither throws nor changes
    anything. *)
Theorem isValidWord_loaded (now : Z) (text creator room socket : string) (host : Host)
    (word : string) (h : Host) :
  let r := (new_GameRoom now (inr text) creator room socket host).1 in
  exists b,
    isValidWord word (r, h) = (Return b, (r, h)) /\
    (b = true <->
     trim (toLowerCase word) ≠ "" /\
     exists line, line ∈ split_lines text /\
                  trim (toLowerCase word) = trim (toLowerCase line)).
Proof.
  cbv zeta. exists (bool_decide (trim (toLowerCase word) ∈ loaded_words text)).
  split.
  - unfold isValidWord, mbind, M_bind, this. cbn [fst snd].
    by rewrite new_GameRoom_validWords.
  - by rewrite bool_decide_eq_true, elem_of_loaded_words.
Qed.

(** ** Timers *)

Section Keeping.

Context {A B : Type} (J : World -> Prop).

Lemma keeps_ret (a : A) : keeps J (mret a).
Proof. intros w Hw. exact Hw. Qed.

Lemma keeps_throw (e : JSError) : keeps J (throw e : M A).
Proof. intros w Hw. exact Hw. Qed.

Lemma keeps_bind (m : M A) (k : A -> M B) :
  keeps J m -> (forall a, keeps J (k a)) -> keeps J (m ≫= k).
Proof.
  intros Hm Hk w Hw. specialize (Hm w Hw).
  unfold mbind, M_bind. destruct (m w) as [[a|e] w']; simpl in *.
  - by apply Hk.
  - done.
Qed.

Lemma keeps_try_catch (m : M A) (h : JSError -> M A) :
  keeps J m -> (forall e, keeps J (h e)) -> keeps J (try_catch m h).
Proof.
  intros Hm Hh w Hw. specialize (Hm w Hw).
  unfold try_catch. destruct (m w) as [[a|e] w']; simpl in *.
  - done.
  - by apply Hh.
Qed.

End Keeping.

Lemma keeps_this J : keeps J this.
Proof. intros w Hw. exact Hw. Qed.

Lemma keeps_wp {A : Type} (J : World -> Prop) (m : M A) :
  (forall r h, J (r, h) -> wp m (fun _ w' => J w') (r, h)) -> keeps J m.
Proof. intros H [r h] Hw. by apply H. Qed.

Lemma timers_ok_emit e r h : timers_ok (r, h) -> timers_ok (r, host_emit e h).
Proof. intros H. exact H. Qed.

Lemma elem_of_cleared t x timers :
  t ∈ cleared x timers -> t ∈ timers /\ x ≠ Some (handle t).
Proof.
  destruct x as [n|]; cbn [cleared].
  - intros [Hne Hin]%list_elem_of_filter. split; [ done | ]. by intros [= ->].
  - intros Hin. done.
Qed.

Lemma cleared_sublist x timers : cleared x timers `sublist_of` timers.
Proof. destruct x; cbn [cleared]; [ apply sublist_filter | done ]. Qed.

(** Fewer armed timers, the same fields: the invariant stays. *)
Lemma timers_ok_fewer r h out timers :
  timers `sublist_of` pending h ->
  timers_ok (r, h) -> timers_ok (r, mkHost out timers (nextTimer h)).
Proof.
  intros Hsub (Hnodup & Hfresh & Htrack). split; [ | split ]; cbn [fst snd pending nextTimer].
  - eapply sublist_NoDup; [ exact Hnodup | ]. by apply fmap_sublist.
  - intros t Hin. apply Hfresh. by eapply elem_of_sublist.
  - intros t Hin. apply Htrack. by eapply elem_of_sublist.
Qed.

Lemma keeps_io_emit t ev msg : keeps timers_ok (io_emit t ev msg).
Proof. intros [r h] H. exact H. Qed.

Lemma keeps_clearTimeout x : keeps timers_ok (clearTimeout x).
Proof.
  intros [r h] H. unfold clearTimeout. cbn [fst snd].
  apply timers_ok_fewer; [ apply sublist_filter | exact H ].
Qed.

Lemma keeps_assign f :
  (forall r h, timers_ok (r, h) -> timers_ok (f r, h)) -> keeps timers_ok (assign f).
Proof. intros Hf [r h] H. by apply Hf. Qed.

Create HintDb room_timers.

#[export] Hint Resolve keeps_this keeps_io_emit keeps_clearTimeout : room_timers.

(** Walks a method as [preserve] does, for an invariant of the world. *)
Ltac keep_step side :=
  lazymatch goal with
  | |- keeps _ (_ ≫= _) => apply keeps_bind; [ | intros ? ]
  | |- keeps _ (try_catch _ _) => apply keeps_try_catch; [ | intros ? ]
  | |- keeps _ (mret _) => apply keeps_ret
  | |- keeps _ (throw _) => apply keeps_throw
  | |- keeps _ (assign _) => apply keeps_assign; solve [ side ]
  | |- keeps _ (let _ := _ in _) => cbv zeta
  | |- keeps _ (match ?x with _ => _ end) => destruct x
  | |- keeps _ ?m =>
      first [ solve [ auto with room_timers ]
            | let h := head_of m in progress (unfold h) ]
  end.

Ltac keep side := repeat (keep_step side).

(** The side condition of a field assignment that leaves the timer fields
    and the phase alone. *)
Ltac same_timers :=
  let r := fresh in let h := fresh in let H := fresh in intros r h H; exact H.

(** Arming the round timer once the stored one is cleared. *)
Lemma timers_ok_arm_round r h out ms :
  timers_ok (r, h) ->
  timers_ok
    (set_roundTimer (Some (nextTimer h)) r,
     mkHost out
       (cleared (roundTimer r) (pending h)
        ++ [mkTimer (nextTimer h) CbHandleRoundTimeout ms])
       (S (nextTimer h))).
Proof.
  intros (Hnodup & Hfresh & Htrack).
  split; [ | split ]; cbn [fst snd pending nextTimer].
  - rewrite fmap_app. apply NoDup_app. split; [ | split ].
    + eapply sublist_NoDup; [ exact Hnodup | ]. apply fmap_sublist, cleared_sublist.
    + intros x (t & -> & [Hin _]%elem_of_cleared)%list_elem_of_fmap.
      cbn. intros Heq%list_elem_of_singleton. specialize (Hfresh t Hin).
      cbn in Hfresh. lia.
    + apply NoDup_singleton.
  - intros t [[Hin _]%elem_of_cleared | ->%list_elem_of_singleton]%elem_of_app.
    + specialize (Hfresh t Hin). cbn in *. lia.
    + cbn. lia.
  - intros t [[Hin Hne]%elem_of_cleared | ->%list_elem_of_singleton]%elem_of_app.
    + specialize (Htrack t Hin). cbn [fst] in Htrack.
      destruct (callback t); fields; [ done | done | by destruct Hne ].
    + reflexivity.
Qed.

Lemma wp_clear_if_set t Q r h :
  Q (Return tt) (r, mkHost (outbox h) (cleared t (pending h)) (nextTimer h)) ->
  wp (clear_if_set t) Q (r, h).
Proof.
  intros HQ. unfold clear_if_set, cleared in *.
  destruct t; [ by apply wp_clearTimeout | ].
  apply wp_ret. by destruct h.
Qed.

Lemma startRound_timers_ok : keeps timers_ok startRound.
Proof.
  apply keeps_wp. intros r h H. unfold startRound.
  apply wp_bind, wp_this. cbn [fst snd]. apply wp_bind, wp_clear_if_set.
  unfold sendToPlayer, handleError, broadcast.
  wp_run; unfold host_emit; fields;
    apply (timers_ok_arm_round r h _ _ H).
Qed.

#[export] Hint Resolve startRound_timers_ok : room_timers.

Lemma wp_keeps {A : Type} (J : World -> Prop) (m : M A) Q w :
  keeps J m -> J w -> (forall o w', J w' -> Q o w') -> wp m Q w.
Proof. intros Hm Hw HQ. apply HQ. by apply Hm. Qed.

(** Arming the game-end timer of a game that was not started. *)
Lemma timers_ok_arm_end r r' h out ms :
  timers_ok (r, h) ->
  isGameStarted r = false ->
  roomExpiryTimer r' = roomExpiryTimer r ->
  roundTimer r' = roundTimer r ->
  gameEndTimer r' = Some (nextTimer h) ->
  isGameStarted r' = true ->
  timers_ok
    (r', mkHost out (pending h ++ [mkTimer (nextTimer h) CbEndGame ms]) (S (nextTimer h))).
Proof.
  intros (Hnodup & Hfresh & Htrack) Hlobby Hexpiry Hround Hend Hstarted.
  split; [ | split ]; cbn [fst snd pending nextTimer] in *.
  - rewrite fmap_app. apply NoDup_app. split; [ | split ].
    + exact Hnodup.
    + intros x (t & -> & Hin)%list_elem_of_fmap.
      cbn. intros Heq%list_elem_of_singleton. specialize (Hfresh t Hin). lia.
    + apply NoDup_singleton.
  - intros t [Hin | ->%list_elem_of_singleton]%elem_of_app.
    + specialize (Hfresh t Hin). lia.
    + cbn. lia.
  - intros t [Hin | ->%list_elem_of_singleton]%elem_of_app.
    + specialize (Htrack t Hin).
      destruct (callback t); [ congruence | | congruence ].
      destruct Htrack as [_ Htrue]. congruence.
    + cbn. done.
Qed.

Lemma startGame_timers_ok shuffle : keeps timers_ok (startGame shuffle).
Proof.
  apply keeps_wp. intros r h H. unfold startGame.
  repeat lazymatch goal with
  | |- wp startRound _ _ =>
      apply (wp_keeps timers_ok);
      [ apply startRound_timers_ok | | intros [] ? ?; fields; wp_run; assumption ]
  | |- _ => wp_step
  end.
  - exact H.
  - exact H.
  - unfold host_emit; fields. by apply (timers_ok_arm_end r).
Qed.

(** The timers of the room all cleared, none is left armed. *)
Lemma all_cleared r h :
  timers_ok (r, h) ->
  cleared (roomExpiryTimer r)
    (cleared (roundTimer r) (cleared (gameEndTimer r) (pending h))) = [].
Proof.
  intros (_ & _ & Htrack). apply elem_of_nil_inv. intros t Hin.
  apply elem_of_cleared in Hin as [Hin Hexpiry].
  apply elem_of_cleared in Hin as [Hin Hround].
  apply elem_of_cleared in Hin as [Hin Hend].
  specialize (Htrack t Hin). cbn [fst] in Htrack.
  destruct (callback t); [ done | by destruct Htrack | done ].
Qed.

Lemma clearGameTimers_run r h :
  timers_ok (r, h) ->
  clearGameTimers (r, h) = (Return tt, (disarmed r, mkHost (outbox h) [] (nextTimer h))).
Proof.
  intros H. pose proof (all_cleared r h H) as E.
  assert (Hwp : wp clearGameTimers
                  (fun o w' =>
                     (o, w') =
                     (Return tt, (disarmed r, mkHost (outbox h) [] (nextTimer h))))
                  (r, h)).
  { unfold clearGameTimers. wp_run.
    all: repeat match goal with
           | Hq : _ = Some _ |- _ => progress (rewrite Hq in E)
           | Hq : _ = None |- _ => progress (rewrite Hq in E)
           end; cbn [cleared] in E; rewrite ?E.
    all: try (destruct h; cbn in *; subst).
    all: destruct r; unfold disarmed; cbn in *; subst; reflexivity. }
  unfold wp in Hwp. by destruct (clearGameTimers (r, h)).
Qed.

Lemma clearGameTimers_timers_ok : keeps timers_ok clearGameTimers.
Proof.
  intros [r h] H. rewrite (clearGameTimers_run r h H). cbn [snd].
  split; [ | split ]; cbn [fst snd pending].
  - constructor.
  - by intros t ?%elem_of_nil.
  - by intros t ?%elem_of_nil.
Qed.

#[export] Hint Resolve startGame_timers_ok clearGameTimers_timers_ok : room_timers.

(** A timer that fires leaves the armed ones, and its callback keeps the
    invariant. *)
Lemma fire_timers_ok (h : nat) : keeps timers_ok (fire h).
Proof.
  intros [r host] H. unfold fire. cbn [fst snd].
  destruct (list_find _ _) as [[i t]|]; [ | exact H ].
  assert (H' : timers_ok
                 (r, mkHost (outbox host)
                       (filter (fun t => handle t ≠ h) (pending host))
                       (nextTimer host)))
    by (apply timers_ok_fewer; [ apply sublist_filter | exact H ]).
  revert H'. generalize (r, mkHost (outbox host)
                              (filter (fun t => handle t ≠ h) (pending host))
                              (nextTimer host)).
  intros w Hw. destruct (callback t) as [why| | ].
  - revert w Hw. change (keeps timers_ok (deleteRoom why)). keep same_timers.
  - revert w Hw. change (keeps timers_ok (endGame;; mret tt)). keep same_timers.
  - revert w Hw. change (keeps timers_ok handleRoundTimeout). keep same_timers.
Qed.

Lemma call_timers_ok shuffle c : keeps timers_ok (call shuffle c).
Proof.
  destruct c; cbn [call]; try solve [ keep same_timers ].
  apply fire_timers_ok.
Qed.

Lemma new_GameRoom_timers_ok now file creator room socket host :
  pending host = [] ->
  timers_ok (new_GameRoom now file creator room socket host).
Proof.
  intros Hclean. unfold new_GameRoom.
  match goal with
  | |- context [ ?m (?r0, host) ] =>
      assert (Hm : wp m (fun _ w' => timers_ok w') (r0, host));
        [ | unfold wp in Hm; destruct (m (r0, host)) as [o [r h]]; exact Hm ]
  end.
  unfold loadWordList. wp_run.
  all: split; [ | split ]; cbn [fst snd pending nextTimer]; rewrite Hclean; cbn [app].
  all: try (intros t ->%list_elem_of_singleton; cbn; first [ lia | reflexivity ]).
  all: apply NoDup_singleton.
Qed.

Lemma run_timers_ok shuffle calls w :
  timers_ok w -> timers_ok (run shuffle calls w).
Proof.
  intros Hw. induction calls as [ | c calls IH ] using rev_ind.
  - exact Hw.
  - rewrite run_snoc. by apply call_timers_ok.
Qed.

Lemma timers_ok_held r h t :
  timers_ok (r, h) -> t ∈ pending h -> held_in r (callback t) = Some (handle t).
Proof.
  intros (_ & _ & Htrack) Hin. specialize (Htrack t Hin). cbn [fst] in Htrack.
  unfold held_in. destruct (callback t); [ done | by destruct Htrack | done ].
Qed.

Lemma one_handle_one_timer (n : nat) (l : list Timer) :
  NoDup (handle <$> l) -> (forall t, t ∈ l -> handle t = n) -> (length l <= 1)%nat.
Proof.
  intros Hnodup Hsame. destruct l as [ | a [ | b l ] ]; cbn; [ lia | lia | ].
  exfalso. rewrite !fmap_cons in Hnodup.
  apply NoDup_cons in Hnodup as [Hnotin _]. apply Hnotin.
  rewrite (Hsame a), <- (Hsame b).
  - apply list_elem_of_here.
  - apply list_elem_of_further, list_elem_of_here.
  - apply list_elem_of_here.
Qed.

Lemma wp_eq {A : Type} (m : M A) Q w o w' : m w = (o, w') -> Q o w' -> wp m Q w.
Proof. unfold wp. intros ->. done. Qed.

Lemma deleteRoom_run why r h :
  timers_ok (r, h) ->
  deleteRoom why (r, h) =
  (Return tt,
   (disarmed r,
    mkHost (outbox h ++ [mkEmit (roomId r) "roomDeleted" (RoomDeleted why)]) []
      (nextTimer h))).
Proof.
  intros H.
  assert (Hwp : wp (deleteRoom why)
                  (fun o w' =>
                     (o, w') =
                     (Return tt,
                      (disarmed r,
                       mkHost (outbox h
                               ++ [mkEmit (roomId r) "roomDeleted" (RoomDeleted why)]) []
                         (nextTimer h))))
                  (r, h)).
  { unfold deleteRoom. apply wp_bind.
    apply (wp_eq _ _ _ _ _ (clearGameTimers_run r h H)).
    unfold disarmed, broadcast, handleError. wp_run.
    unfold host_emit; fields. reflexivity. }
  unfold wp in Hwp. by destruct (deleteRoom why (r, h)).
Qed.

(** X20. In a room made on a host with no timer armed, whatever calls
    follow and whichever timers fire, every armed timer is the one the room
    holds for it: a room-expiry timer is in [roomExpiryTimer], a round timer
    in [roundTimer], and a game-end timer in [gameEndTimer] of a game that
    has started. *)
Theorem armed_timers_are_held (shuffle : list string -> list string) (now : Z)
    (file : JSError + string) (creator room socket : string) (host : Host)
    (calls : list Call) :
  pending host = [] ->
  let w := run shuffle calls (new_GameRoom now file creator room socket host) in
  forall t, t ∈ pending w.2 ->
    held_in w.1 (callback t) = Some (handle t) /\
    (callback t = CbEndGame -> isGameStarted w.1 = true).
Proof.
  intros Hclean w t Hin.
  assert (H : timers_ok w)
    by (apply run_timers_ok, new_GameRoom_timers_ok, Hclean).
  destruct w as [r h]. split.
  - by apply (timers_ok_held r h).
  - destruct H as (_ & _ & Htrack). specialize (Htrack t Hin). cbn [fst] in *.
    intros Hcb. rewrite Hcb in Htrack. by destruct Htrack.
Qed.

(** A, B and a first word: the two timers armed are the ones held. *)
Lemma armed_timers_are_held_witness :
  pending host0 = [] /\
  let w := run in_order [AddPlayer "B" "sB"; StartGame; PlayWord "A" "Apple"]
             (new_GameRoom 0 (inr words_txt) "A" "room_1" "sA" host0) in
  forall t, t ∈ pending w.2 ->
    held_in w.1 (callback t) = Some (handle t) /\
    (callback t = CbEndGame -> isGameStarted w.1 = true).
Proof.
  split.
  - reflexivity.
  - apply (armed_timers_are_held in_order 0 (inr words_txt) "A" "room_1" "sA" host0
             [AddPlayer "B" "sB"; StartGame; PlayWord "A" "Apple"]).
    reflexivity.
Defined.

(** X21. In a room made on a host with no timer armed, no callback is ever
    armed twice: at most one round timer, one game-end timer and one
    room-expiry timer are running at any time. *)
Theorem no_callback_armed_twice (shuffle : list string -> list string) (now : Z)
    (file : JSError + string) (creator room socket : string) (host : Host)
    (calls : list Call) (cb : TimerCallback) :
  pending host = [] ->
  let w := run shuffle calls (new_GameRoom now file creator room socket host) in
  (length (filter (fun t => callback t = cb) (pending w.2)) <= 1)%nat.
Proof.
  intros Hclean w.
  assert (H : timers_ok w)
    by (apply run_timers_ok, new_GameRoom_timers_ok, Hclean).
  destruct w as [r h]. cbn [snd].
  destruct (held_in r cb) as [n|] eqn:Hheld.
  - apply (one_handle_one_timer n).
    + destruct H as (Hnodup & _). eapply sublist_NoDup; [ exact Hnodup | ].
      apply fmap_sublist, sublist_filter.
    + intros t [Hcb Hin]%list_elem_of_filter.
      pose proof (timers_ok_held r h t H Hin) as Ht. rewrite Hcb, Hheld in Ht.
      by injection Ht.
  - replace (filter _ _) with (@nil Timer); [ cbn; lia | ].
    symmetry. apply elem_of_nil_inv. intros t [Hcb Hin]%list_elem_of_filter.
    pose proof (timers_ok_held r h t H Hin) as Ht. rewrite Hcb, Hheld in Ht.
    discriminate.
Qed.

(** Three rounds in a row were started, one round timer is running. *)
Lemma no_callback_armed_twice_witness :
  pending host0 = [] /\
  let w := run in_order [AddPlayer "B" "sB"; StartGame; StartRound; StartRound]
             (new_GameRoom 0 (inr words_txt) "A" "room_1" "sA" host0) in
  (length (filter (fun t => callback t = CbHandleRoundTimeout) (pending w.2)) <= 1)%nat.
Proof.
  split.
  - reflexivity.
  - apply (no_callback_armed_twice in_order 0 (inr words_txt) "A" "room_1" "sA" host0
             [AddPlayer "B" "sB"; StartGame; StartRound; StartRound]
             CbHandleRoundTimeout).
    reflexivity.
Defined.

(** X22. In a room made on a host with no timer armed, [deleteRoom]
    returns after any calls, leaves no timer armed and the three timer
    fields [null], and tells the room once, with the reason, that it is
    deleted; [clearGameTimers] alone does the same without the message. *)
Theorem deleteRoom_disarms (shuffle : list string -> list string) (now : Z)
    (file : JSError + string) (creator room socket : string) (host : Host)
    (calls : list Call) (why : string) :
  pending host = [] ->
  let w := run shuffle calls (new_GameRoom now file creator room socket host) in
  clearGameTimers w =
    (Return tt, (disarmed w.1, mkHost (outbox w.2) [] (nextTimer w.2))) /\
  deleteRoom why w =
    (Return tt,
     (disarmed w.1,
      mkHost (outbox w.2 ++ [mkEmit (roomId w.1) "roomDeleted" (RoomDeleted why)]) []
        (nextTimer w.2))).
Proof.
  intros Hclean w.
  assert (H : timers_ok w)
    by (apply run_timers_ok, new_GameRoom_timers_ok, Hclean).
  destruct w as [r h]. split.
  - by apply clearGameTimers_run.
  - by apply deleteRoom_run.
Qed.

(** The game of A and B is deleted after the first word. *)
Lemma deleteRoom_disarms_witness :
  pending host0 = [] /\
  let w := run in_order [AddPlayer "B" "sB"; StartGame; PlayWord "A" "Apple"]
             (new_GameRoom 0 (inr words_txt) "A" "room_1" "sA" host0) in
  clearGameTimers w =
    (Return tt, (disarmed w.1, mkHost (outbox w.2) [] (nextTimer w.2))) /\
  deleteRoom "Game over" w =
    (Return tt,
     (disarmed w.1,
      mkHost (outbox w.2
              ++ [mkEmit (roomId w.1) "roomDeleted" (RoomDeleted "Game over")]) []
        (nextTimer w.2))).
Proof.
  split.
  - reflexivity.
  - apply (deleteRoom_disarms in_order 0 (inr words_txt) "A" "room_1" "sA" host0
             [AddPlayer "B" "sB"; StartGame; PlayWord "A" "Apple"] "Game over").
    reflexivity.
Defined.

(** ** Exceptions *)

Section Returning.

Context {A B : Type}.

Lemma returns_ret (a : A) : returns (mret a).
Proof. intros w. by exists a. Qed.

Lemma returns_bind (m : M A) (k : A -> M B) :
  returns m -> (forall a, returns (k a)) -> returns (m ≫= k).
Proof.
  intros Hm Hk w. destruct (Hm w) as [a Ha].
  unfold mbind, M_bind. destruct (m w) as [[a'|e] w']; cbn in *; [ | done ].
  apply Hk.
Qed.

(** A [try] returns when its [catch] does, whatever its body throws. *)
Lemma returns_try_catch (m : M A) (h : JSError -> M A) :
  (forall e, returns (h e)) -> returns (try_catch m h).
Proof.
  intros Hh w. unfold try_catch. destruct (m w) as [[a|e] w']; cbn.
  - by exists a.
  - apply Hh.
Qed.

End Returning.

Lemma returns_this : returns this.
Proof. intros w. by eexists. Qed.

Lemma returns_assign f : returns (assign f).
Proof. intros w. by eexists. Qed.

Lemma returns_io_emit t ev msg : returns (io_emit t ev msg).
Proof. intros w. by eexists. Qed.

Lemma returns_setTimeout cb ms : returns (setTimeout cb ms).
Proof. intros w. by eexists. Qed.

Lemma returns_clearTimeout h : returns (clearTimeout h).
Proof. intros w. by eexists. Qed.

Create HintDb room_returns.

#[export] Hint Resolve returns_this returns_assign returns_io_emit returns_setTimeout
  returns_clearTimeout : room_returns.

Ltac return_step :=
  lazymatch goal with
  | |- returns (_ ≫= _) => apply returns_bind; [ | intros ? ]
  | |- returns (try_catch _ _) => apply returns_try_catch; intros ?
  | |- returns (mret _) => apply returns_ret
  | |- returns (let _ := _ in _) => cbv zeta
  | |- returns (match ?x with _ => _ end) => destruct x
  | |- returns ?m =>
      first [ solve [ auto with room_returns ]
            | let h := head_of m in progress (unfold h) ]
  end.

Ltac returning := repeat return_step.

Lemma returns_unit (m : M unit) w : returns m -> (m w).1 = Return tt.
Proof. intros Hm. by destruct (Hm w) as [[] Ha]. Qed.

Lemma endGame_throws w : (endGame w).1 = Throw (ReferenceError "username").
Proof.
  by apply (wp_endGame (fun o _ => o = Throw (ReferenceError "username")) w).
Qed.

(** X23. With an [io] that delivers, the only exception that leaves a
    method of the room is the [ReferenceError] of [endGame]: every other
    call returns, in any state of the room, and a call that throws is
    [endGame] itself or the game-end timer firing it. *)
Theorem only_endGame_throws (shuffle : list string -> list string) (c : Call) (w : World) :
  (call shuffle c w).1 = Return tt \/
  ((call shuffle c w).1 = Throw (ReferenceError "username") /\
   (c = EndGame \/
    exists h t, c = Fire h /\ t ∈ pending w.2 /\ handle t = h /\ callback t = CbEndGame)).
Proof.
  destruct c; cbn [call];
    try solve [ left; apply returns_unit; returning ].
  - right. split; [ | by left ].
    unfold mbind, M_bind. by rewrite (surjective_pairing (endGame w)), endGame_throws.
  - unfold fire. destruct (list_find _ _) as [[i t]|] eqn:Hfind; [ | by left ].
    apply list_find_Some in Hfind as (Hi & Hh & _).
    destruct (callback t) as [why| | ] eqn:Hcb.
    + left. apply returns_unit. returning.
    + right. split.
      * unfold mbind, M_bind.
        match goal with
        | |- context [ endGame ?w' ] =>
            by rewrite (surjective_pairing (endGame w')), endGame_throws
        end.
      * right. exists h, t. repeat split; [ | done | done ].
        by eapply list_elem_of_lookup_2.
    + left. apply returns_unit. returning.
Qed.

(** ** The user table and the end-game handler *)

(** X24. Written and read back: when the pool answers both statements,
    [updateUserStatsByUserName] resolves, [getUserStatsByUsername] then
    gives the two counters just written if the username has a row and
    rejects with "User not found" if it has none, and the rows of the other
    usernames are as before. *)
Theorem stats_written_then_read (pool_error : Router.Query -> option JSError)
    (username : string) (played won : Z) (s : Router.State) :
  pool_error (Router.UpdateStats username played won) = None ->
  pool_error (Router.SelectStats username) = None ->
  exists s',
    Router.updateUserStatsByUserName pool_error username played won s = inr s' /\
    Router.getUserStatsByUsername pool_error username s' =
      match Router.users s !! username with
      | Some _ => inr (Router.mkStats played won)
      | None => inl (Error "User not found")
      end /\
    forall other, other ≠ username ->
      Router.users s' !! other = Router.users s !! other.
Proof.
  intros Hupdate Hselect.
  unfold Router.updateUserStatsByUserName, Router.getUserStatsByUsername.
  rewrite Hupdate. eexists. split; [ reflexivity | ].
  cbn [Router.users]. rewrite Hselect. split.
  - rewrite lookup_alter_eq. by destruct (Router.users s !! username).
  - intros other Hne. by rewrite lookup_alter_ne.
Qed.

(** A pool that answers every statement, and a table with one row. *)
Lemma stats_written_then_read_witness :
  exists s',
    Router.updateUserStatsByUserName (fun _ => None) "A" 3 1
      (Router.mkState ∅ [] {["A" := Router.mkStats 2 0]} []) = inr s' /\
    Router.getUserStatsByUsername (fun _ => None) "A" s' =
      match Router.users (Router.mkState ∅ [] {["A" := Router.mkStats 2 0]} [])
              !! "A" with
      | Some _ => inr (Router.mkStats 3 1)
      | None => inl (Error "User not found")
      end /\
    forall other, other ≠ "A" ->
      Router.users s' !! other =
      Router.users (Router.mkState ∅ [] {["A" := Router.mkStats 2 0]} []) !! other.
Proof.
  apply (stats_written_then_read (fun _ => None) "A" 3 1
           (Router.mkState ∅ [] {["A" := Router.mkStats 2 0]} [])); reflexivity.
Defined.

(** X25. The end-game handler of an existing room touches the counters of
    the winners only: a player who did not win keeps the row they had, games
    played included, whatever the pool answers, and the other rooms of the
    registry stay. *)
Theorem endGame_others_untouched (pool_error : Router.Query -> option JSError)
    (socket room : string) (s : Router.State) (r : GameRoom) :
  Router.rooms s !! room = Some r ->
  let s' := Router.endGame pool_error socket room s in
  (forall username, username ∉ determineWinner r ->
     Router.users s' !! username = Router.users s !! username) /\
  (forall other, other ≠ room ->
     Router.rooms s' !! other = Router.rooms s !! other).
Proof.
  intros Hroom s'. subst s'. unfold Router.endGame. rewrite Hroom.
  cbn [Router.net Router.rooms Router.users Router.emit].
  destruct (update_winners_frame pool_error (determineWinner r) s) as [-> _].
  split.
  - intros username Hout. by apply update_winners_other.
  - intros other Hne. by rewrite lookup_delete_ne.
Qed.

(** The tie of A and B: C, with three points, keeps the row of before. *)
Lemma endGame_others_untouched_witness :
  Router.rooms router0 !! "room_1" = Some tie_room /\
  let s' := Router.endGame (fun _ => None) "sA" "room_1" router0 in
  (forall username, username ∉ determineWinner tie_room ->
     Router.users s' !! username = Router.users router0 !! username) /\
  (forall other, other ≠ "room_1" ->
     Router.rooms s' !! other = Router.rooms router0 !! other).
Proof.
  assert (H : Router.rooms router0 !! "room_1" = Some tie_room)
    by (vm_compute; reflexivity).
  split; [ exact H | ].
  exact (endGame_others_untouched (fun _ => None) "sA" "room_1" router0 tie_room H).
Defined.

(** ** The draft's winner *)

Lemma legacy_winner_loop (l : PlayersMap) (w : option string) (m : Z) (ws : list string) :
  Forall (fun entry : string * PlayerData => 0 <= points entry.2) l ->
  (ws = [] -> m = -1) ->
  w = head ws ->
  (foldl (fun (acc : option string * Z) (entry : string * PlayerData) =>
            if (acc.2 <? points entry.2)%Z then (Some entry.1, points entry.2)
            else acc)
         (w, m) l).1 =
  head (foldl winner_step (m, ws) l).2.
Proof.
  revert w m ws. induction l as [ | [u data] l IH ]; intros w m ws Hpos Hempty Hw.
  - exact Hw.
  - apply Forall_cons in Hpos as [Hu Hpos]. cbn [foldl fst snd winner_step] in *.
    destruct (m <? points data)%Z eqn:Hlt.
    + apply IH; [ done | done | done ].
    + destruct (points data =? m)%Z eqn:Heq.
      * apply IH; [ done | | ].
        -- by intros [? ?]%app_eq_nil.
        -- destruct ws as [ | first ws ]; [ | done ].
           apply Z.eqb_eq in Heq. specialize (Hempty eq_refl). lia.
      * by apply IH.
Qed.

(** X26. The draft's [determineWinner] names the first of the winners the
    room's [determineWinner] returns, and [null] when there is none: on
    every players map without a negative score the draft keeps the first
    player at the greatest score and drops the players tied with them. *)
Theorem legacy_winner_is_first_winner (r : GameRoom) :
  Forall (fun entry : string * PlayerData => 0 <= points entry.2) (playersMap r) ->
  Legacy.determineWinner r = head (determineWinner r).
Proof.
  intros Hpos. unfold Legacy.determineWinner, determineWinner.
  by apply legacy_winner_loop.
Qed.

(** The tie of A and B: the draft names A. *)
Lemma legacy_winner_is_first_winner_witness :
  Forall (fun entry : string * PlayerData => 0 <= points entry.2) (playersMap tie_room) /\
  Legacy.determineWinner tie_room = head (determineWinner tie_room).
Proof.
  assert (H : Forall (fun entry : string * PlayerData => 0 <= points entry.2)
                (playersMap tie_room))
    by (vm_compute; repeat constructor; discriminate).
  split; [ exact H | exact (legacy_winner_is_first_winner tie_room H) ].
Defined.
